(** * The design-system facade of tailwindcss

    A shallow embedding of [packages/tailwindcss/src/design-system.ts]
    ([buildDesignSystem]) and the properties its specification states about
    the memoising caches, the variant order, the theme-value resolver, the
    used-variable tracker and the batch facade [candidatesToCss]. *)

From Stdlib Require Import ZArith NArith Ascii String.
From stdpp Require Import base list sorting.

Local Open Scope Z_scope.

(** ** JavaScript strings

    A JavaScript string is a sequence of UTF-16 code units. *)

Definition jsstring := list N.

Definition js (s : string) : jsstring :=
  List.map N_of_ascii (list_ascii_of_string s).

Definition SLASH : N := 47%N.

(** The code units [String.prototype.trim] removes: ECMAScript's WhiteSpace
    and LineTerminator productions. *)
Definition is_whitespace (c : N) : bool :=
  (((9 <=? c) && (c <=? 13)) || (c =? 32) || (c =? 160) || (c =? 5760)
   || ((8192 <=? c) && (c <=? 8202)) || (c =? 8232) || (c =? 8233)
   || (c =? 8239) || (c =? 8287) || (c =? 12288) || (c =? 65279))%N.

Fixpoint trimStart (s : jsstring) : jsstring :=
  match s with
  | [] => []
  | c :: s' => if is_whitespace c then trimStart s' else s
  end.

Definition trimEnd (s : jsstring) : jsstring :=
  rev (trimStart (rev s)).

Definition trim (s : jsstring) : jsstring := trimEnd (trimStart s).

(** [s.lastIndexOf(c)] for a one-unit search string: the greatest index
    holding [c], or [-1].  [i] is the index of the head of [s]. *)
Fixpoint lastIndexOf_from (s : jsstring) (c : N) (i : Z) : Z :=
  match s with
  | [] => -1
  | x :: s' =>
      let r := lastIndexOf_from s' c (i + 1) in
      if negb (r =? -1) then r else if (x =? c)%N then i else -1
  end.

Definition lastIndexOf (s : jsstring) (c : N) : Z := lastIndexOf_from s c 0.

(** [s.slice(start, end)]: negative indices count from the end, and both
    ends are clamped to the string. *)
Definition slice_index (len i : Z) : Z :=
  if i <? 0 then Z.max (len + i) 0 else Z.min i len.

Definition slice (s : jsstring) (start end_ : Z) : jsstring :=
  let len := Z.of_nat (length s) in
  let from := slice_index len start in
  let to := slice_index len end_ in
  take (Z.to_nat (to - from)) (drop (Z.to_nat from) s).

(** [s.slice(start)] *)
Definition slice_from (s : jsstring) (start : Z) : jsstring :=
  slice s start (Z.of_nat (length s)).

(** ** JavaScript values at the theme boundary *)

Inductive JsValue : Type :=
  | JsUndefined
  | JsNull
  | JsString (s : jsstring).

(** [v ?? d] *)
Definition nullish (v d : JsValue) : JsValue :=
  match v with
  | JsUndefined | JsNull => d
  | _ => v
  end.

(** Truthiness of a [string | null | undefined]. *)
Definition truthy (v : JsValue) : bool :=
  match v with
  | JsString (_ :: _) => true
  | _ => false
  end.

(** Result of a call that may throw. *)
Inductive Outcome (E A : Type) : Type :=
  | Returned (a : A)
  | Thrown (e : E).
Arguments Returned {E A} a.
Arguments Thrown {E A} e.

(** ** [Map]: keys in insertion order

    A JavaScript [Map] iterates in insertion order, and [set] on a present
    key keeps the key's position. *)

Section JSMap.
Context {K V : Type} `{EqDecision K}.

Definition JSMap := list (K * V).

Fixpoint Map_get (m : JSMap) (k : K) : option V :=
  match m with
  | [] => None
  | (k', v) :: m' => if decide (k' = k) then Some v else Map_get m' k
  end.

Fixpoint Map_set (m : JSMap) (k : K) (v : V) : JSMap :=
  match m with
  | [] => [(k, v)]
  | (k', v') :: m' =>
      if decide (k' = k) then (k, v) :: m' else (k', v') :: Map_set m' k v
  end.

Definition Map_values (m : JSMap) : list V := m.*2.
Definition Map_keys (m : JSMap) : list K := m.*1.
End JSMap.
Arguments JSMap : clear implicits.

(** ** The value parser

    Modelled from the spec: [./value-parser] ([parse], [walk],
    [ValueWalkAction]) is not under src/.  "Value tokenizer:
    parse(raw) -> token tree, walk(tree, visitor) with a 'skip subtree'
    signal the visitor may return."  The tree has function-call tokens
    with their argument tokens, bare words and separators. *)

#[warnings="-register-all"]
Inductive ValueAstNode : Type :=
  | ValueWordNode (value : jsstring)
  | ValueFunctionNode (value : jsstring) (nodes : list ValueAstNode)
  | ValueSeparatorNode (value : jsstring).

Inductive ValueWalkAction : Type := Continue | Skip | Stop.

Definition OPEN_PAREN : N := 40%N.
Definition CLOSE_PAREN : N := 41%N.
Definition DASH : N := 45%N.

(** The code units that separate the tokens of a value. *)
Definition is_separator (c : N) : bool :=
  ((c =? 9) || (c =? 10) || (c =? 32) || (c =? 44) || (c =? 47)
   || (c =? 58) || (c =? 60) || (c =? 61) || (c =? 62))%N.

(** Tokenizer state: the function calls still open (innermost first, each
    with its name and the arguments read so far), the finished top-level
    tokens, the word being read and the separator being read. *)
Record ParseState : Type := {
  stack : list (jsstring * list ValueAstNode);
  ast : list ValueAstNode;
  buffer : jsstring;
  separator : jsstring;
}.

(** Append a finished token to the innermost open call, or to the top
    level. *)
Definition push_node (node : ValueAstNode) (st : ParseState) : ParseState :=
  match stack st with
  | [] =>
      {| stack := []; ast := ast st ++ [node];
         buffer := buffer st; separator := separator st |}
  | (name, nodes) :: rest =>
      {| stack := (name, nodes ++ [node]) :: rest; ast := ast st;
         buffer := buffer st; separator := separator st |}
  end.

Definition flush_word (st : ParseState) : ParseState :=
  match buffer st with
  | [] => st
  | _ :: _ =>
      push_node (ValueWordNode (buffer st))
        {| stack := stack st; ast := ast st; buffer := [];
           separator := separator st |}
  end.

Definition flush_separator (st : ParseState) : ParseState :=
  match separator st with
  | [] => st
  | _ :: _ =>
      push_node (ValueSeparatorNode (separator st))
        {| stack := stack st; ast := ast st; buffer := buffer st;
           separator := [] |}
  end.

(** Close the innermost open call: what is left in the buffer is its last
    argument. *)
Definition close_call (st : ParseState) : ParseState :=
  let st := flush_word st in
  match stack st with
  | [] => st
  | (name, nodes) :: rest =>
      push_node (ValueFunctionNode name nodes)
        {| stack := rest; ast := ast st; buffer := []; separator := [] |}
  end.

Definition parse_step (st : ParseState) (c : N) : ParseState :=
  if is_separator c then
    let st := flush_word st in
    {| stack := stack st; ast := ast st; buffer := [];
       separator := separator st ++ [c] |}
  else
    let st := flush_separator st in
    if (c =? OPEN_PAREN)%N then
      {| stack := (buffer st, []) :: stack st; ast := ast st; buffer := [];
         separator := [] |}
    else if (c =? CLOSE_PAREN)%N then close_call st
    else
      {| stack := stack st; ast := ast st; buffer := buffer st ++ [c];
         separator := [] |}.

(** At the end of the input the calls still open are closed, outermost
    last. *)
Fixpoint close_all (fuel : nat) (st : ParseState) : ParseState :=
  match fuel with
  | O => st
  | S fuel' =>
      match stack st with
      | [] => st
      | _ :: _ => close_all fuel' (close_call st)
      end
  end.

Definition ValueParser_parse (input : jsstring) : list ValueAstNode :=
  let st :=
    fold_left parse_step input
      {| stack := []; ast := []; buffer := []; separator := [] |} in
  let st := flush_separator st in
  let st := close_all (length (stack st)) st in
  ast (flush_word st).

(** ** Collaborators

    Everything [design-system.ts] imports from the rest of the package is
    a collaborator, reached only through its interface.  A collaborator
    owns state of its own ([Ext]: the theme with its used-variable marks,
    the registries, the AST nodes that [substituteFunctions] rewrites in
    place), which every call may read and update.  The design system a
    collaborator is handed is not part of [Ext]: a collaborator's own
    calls back into the caches are outside this model.  Objects compared
    by identity ([Variant], [Candidate]) come with a decidable equality
    that stands for [===]. *)

Class Collaborators := {
  Ext : Type;
  Variant : Type;
  Candidate : Type;
  AstNode : Type;
  AstEntry : Type;                 (* one element of compileAstNodes' result *)
  Error : Type;
  Variant_eq :: EqDecision Variant;
  Candidate_eq :: EqDecision Candidate;

  (* ./candidate *)
  parseCandidate_ext : jsstring -> Ext -> list Candidate * Ext;
  parseVariant_ext : jsstring -> Ext -> option Variant * Ext;
  (* ./compile *)
  compileAstNodes_ext : Candidate -> Ext -> list AstEntry * Ext;
  entry_node : AstEntry -> AstNode;
  (* the nodes compiled for the class names, and how many times the
     [onInvalidCandidate] callback was called *)
  compileCandidates : list jsstring -> Ext -> (list AstNode * nat) * Ext;
  (* ./css-functions *)
  substituteFunctions : list AstNode -> Ext -> Outcome Error unit * Ext;
  (* ./ast *)
  optimizeAst : list AstNode -> Ext -> list AstNode * Ext;
  toCss : list AstNode -> Ext -> jsstring;
  (* ./theme *)
  theme_get : list jsstring -> Ext -> JsValue;
  theme_markUsedVariable : jsstring -> Ext -> Ext;
  (* ./variants, ./utilities *)
  variants_compare : option Variant -> option Variant -> Z;
  withAlpha : jsstring -> jsstring -> jsstring;
}.

Section ResolveThemeValue.
Context `{Collaborators}.

(** Lines 166-171: the modifier ([JsNull] when there is none) and the path
    to look up. *)
Definition split_modifier (path : jsstring) : JsValue * jsstring :=
  let lastSlash := lastIndexOf path SLASH in
  let modifier : JsValue := JsNull in
  if negb (lastSlash =? -1)
  then (JsString (trim (slice_from path (lastSlash + 1))),
        trim (slice path 0 lastSlash))
  else (modifier, path).

Definition resolveThemeValue (path : jsstring) (ext : Ext) : JsValue :=
  let '(modifier, path) := split_modifier path in
  let themeValue := nullish (theme_get [path] ext) JsUndefined in
  if truthy modifier && truthy themeValue
  then
    match themeValue, modifier with
    | JsString value, JsString alpha => JsString (withAlpha value alpha)
    | _, _ => themeValue
    end
  else themeValue.
End ResolveThemeValue.

(** ** The design system: state, caches and calls *)

Section DesignSystem.
Context `{Collaborators}.

(** Calls made to the collaborators, in order.  The log is what a
    call-counting stub would observe. *)
Inductive Event : Type :=
  | CallParseCandidate (candidate : jsstring)
  | CallParseVariant (variant : jsstring)
  | CallCompileAstNodes (candidate : Candidate)
  | CallSubstituteFunctions (candidate : Candidate) (nodes : list AstNode)
  | CallMarkUsedVariable (name : jsstring).

(** An array built by [Array.from] is a fresh object; its identity is its
    position in [arrays]. *)
Definition ArrayRef := nat.

(** What [buildDesignSystem] closes over: the collaborators' state, the
    arrays it allocated and the four [DefaultMap]s. *)
Record DesignSystem : Type := {
  ext : Ext;
  arrays : list (list Candidate);
  parsedVariants : JSMap jsstring (option Variant);
  parsedCandidates : JSMap jsstring ArrayRef;
  compiledAstNodes : JSMap Candidate (list AstEntry);
  trackUsedVariables_cache : JSMap jsstring bool;
  calls : list Event;
}.

Definition set_ext (e : Ext) (ds : DesignSystem) : DesignSystem :=
  {| ext := e; arrays := arrays ds; parsedVariants := parsedVariants ds;
     parsedCandidates := parsedCandidates ds;
     compiledAstNodes := compiledAstNodes ds;
     trackUsedVariables_cache := trackUsedVariables_cache ds;
     calls := calls ds |}.
Definition set_arrays (a : list (list Candidate)) (ds : DesignSystem) :=
  {| ext := ext ds; arrays := a; parsedVariants := parsedVariants ds;
     parsedCandidates := parsedCandidates ds;
     compiledAstNodes := compiledAstNodes ds;
     trackUsedVariables_cache := trackUsedVariables_cache ds;
     calls := calls ds |}.
Definition set_parsedVariants (m : JSMap jsstring (option Variant))
    (ds : DesignSystem) :=
  {| ext := ext ds; arrays := arrays ds; parsedVariants := m;
     parsedCandidates := parsedCandidates ds;
     compiledAstNodes := compiledAstNodes ds;
     trackUsedVariables_cache := trackUsedVariables_cache ds;
     calls := calls ds |}.
Definition set_parsedCandidates (m : JSMap jsstring ArrayRef)
    (ds : DesignSystem) :=
  {| ext := ext ds; arrays := arrays ds; parsedVariants := parsedVariants ds;
     parsedCandidates := m;
     compiledAstNodes := compiledAstNodes ds;
     trackUsedVariables_cache := trackUsedVariables_cache ds;
     calls := calls ds |}.
Definition set_compiledAstNodes (m : JSMap Candidate (list AstEntry))
    (ds : DesignSystem) :=
  {| ext := ext ds; arrays := arrays ds; parsedVariants := parsedVariants ds;
     parsedCandidates := parsedCandidates ds;
     compiledAstNodes := m;
     trackUsedVariables_cache := trackUsedVariables_cache ds;
     calls := calls ds |}.
Definition set_trackUsedVariables_cache (m : JSMap jsstring bool)
    (ds : DesignSystem) :=
  {| ext := ext ds; arrays := arrays ds; parsedVariants := parsedVariants ds;
     parsedCandidates := parsedCandidates ds;
     compiledAstNodes := compiledAstNodes ds;
     trackUsedVariables_cache := m;
     calls := calls ds |}.
Definition set_calls (l : list Event) (ds : DesignSystem) :=
  {| ext := ext ds; arrays := arrays ds; parsedVariants := parsedVariants ds;
     parsedCandidates := parsedCandidates ds;
     compiledAstNodes := compiledAstNodes ds;
     trackUsedVariables_cache := trackUsedVariables_cache ds;
     calls := l |}.

(** A computation on the design system: it returns or throws, and leaves
    a new state either way. *)
Definition M (A : Type) : Type :=
  DesignSystem -> Outcome Error A * DesignSystem.

#[global] Instance M_ret : MRet M := λ A a ds, (Returned a, ds).
#[global] Instance M_bind : MBind M := λ A B f m ds,
  match m ds with
  | (Returned a, ds') => f a ds'
  | (Thrown e, ds') => (Thrown e, ds')
  end.

(** [try { m } catch (err) { handler err }] *)
Definition try_catch {A} (m : M A) (handler : Error -> M A) : M A :=
  λ ds,
    match m ds with
    | (Returned a, ds') => (Returned a, ds')
    | (Thrown e, ds') => handler e ds'
    end.

(** A call into a collaborator that returns. *)
Definition call {A} (f : Ext -> A * Ext) : M A :=
  λ ds, let '(a, e) := f (ext ds) in (Returned a, set_ext e ds).

(** A call into a collaborator that may throw. *)
Definition call_throwing {A} (f : Ext -> Outcome Error A * Ext) : M A :=
  λ ds, let '(r, e) := f (ext ds) in (r, set_ext e ds).

Definition record (ev : Event) : M unit :=
  λ ds, (Returned tt, set_calls (calls ds ++ [ev]) ds).

(** [Array.from(iterable)]: a new array object. *)
Definition Array_from (items : list Candidate) : M ArrayRef :=
  λ ds, (Returned (length (arrays ds)),
         set_arrays (arrays ds ++ [items]) ds).

(** *** DefaultMap *)

(** A [DefaultMap] of the design system: where its entries live in the
    state, and its factory. *)
Record DefaultMap (K V : Type) : Type := {
  entries : DesignSystem -> JSMap K V;
  set_entries : JSMap K V -> DesignSystem -> DesignSystem;
  factory : K -> M V;
}.
Arguments entries {K V}.
Arguments set_entries {K V}.
Arguments factory {K V}.

(** Modelled from the spec: the class [DefaultMap] of
    [./utils/default-map] is not under src/.  "On first request for a
    given string, invoke the external parser, store the result keyed by
    the string, return it; on repeat requests, return the stored result
    without re-invoking the parser."  A factory that throws stores
    nothing. *)
Definition DefaultMap_get {K V} `{EqDecision K}
    (m : DefaultMap K V) (key : K) : M V :=
  λ ds,
    match Map_get (entries m ds) key with
    | Some value => (Returned value, ds)
    | None =>
        match factory m key ds with
        | (Returned value, ds') =>
            (Returned value,
             set_entries m (Map_set (entries m ds') key value) ds')
        | (Thrown e, ds') => (Thrown e, ds')
        end
    end.

(** [Array.from(parsedVariants.values())] and friends read the entries in
    insertion order. *)

(** *** The caches of [buildDesignSystem] *)

Definition parsedVariants_map : DefaultMap jsstring (option Variant) :=
  {| entries := parsedVariants;
     set_entries := set_parsedVariants;
     factory := λ variant,
       record (CallParseVariant variant);;
       call (parseVariant_ext variant) |}.

Definition parsedCandidates_map : DefaultMap jsstring ArrayRef :=
  {| entries := parsedCandidates;
     set_entries := set_parsedCandidates;
     factory := λ candidate,
       record (CallParseCandidate candidate);;
       parsed ← call (parseCandidate_ext candidate);
       Array_from parsed |}.

Definition compiledAstNodes_map : DefaultMap Candidate (list AstEntry) :=
  {| entries := compiledAstNodes;
     set_entries := set_compiledAstNodes;
     factory := λ candidate,
       record (CallCompileAstNodes candidate);;
       ast ← call (compileAstNodes_ext candidate);
       try_catch
         (record (CallSubstituteFunctions candidate (entry_node <$> ast));;
          call_throwing (substituteFunctions (entry_node <$> ast));;
          mret ast)
         (λ err, mret []) |}.

(** *** Walking a parsed value

    [walk(ast, visit)] calls [visit] on every node in document order.  A
    visitor that returns nothing continues; after [Skip] the children of
    the node are not visited; [Stop] ends the walk.  The result says
    whether the walk was stopped. *)

Fixpoint walk_node (visit : ValueAstNode -> M (option ValueWalkAction))
    (node : ValueAstNode) {struct node} : M bool :=
  status ← visit node;
  match default Continue status with
  | Stop => mret true
  | Skip => mret false
  | Continue =>
      match node with
      | ValueFunctionNode _ nodes =>
          (fix walk_children (children : list ValueAstNode) : M bool :=
             match children with
             | [] => mret false
             | child :: rest =>
                 stopped ← walk_node visit child;
                 if stopped : bool then mret true else walk_children rest
             end) nodes
      | _ => mret false
      end
  end.

Fixpoint walk (visit : ValueAstNode -> M (option ValueWalkAction))
    (ast : list ValueAstNode) : M bool :=
  match ast with
  | [] => mret false
  | node :: rest =>
      stopped ← walk_node visit node;
      if stopped : bool then mret true else walk visit rest
  end.

(** [theme.markUsedVariable(name)] *)
Definition markUsedVariable (name : jsstring) : M unit :=
  record (CallMarkUsedVariable name);;
  call (λ e, (tt, theme_markUsedVariable name e)).

(** [child.value[0] === '-' && child.value[1] === '-'] *)
Definition starts_with_two_dashes (value : jsstring) : bool :=
  match value with
  | c0 :: c1 :: _ => (c0 =? DASH)%N && (c1 =? DASH)%N
  | _ => false
  end.

(** The inner visitor of [trackUsedVariables] (lines 75-79). *)
Definition visit_var_argument (child : ValueAstNode)
    : M (option ValueWalkAction) :=
  match child with
  | ValueWordNode value =>
      if starts_with_two_dashes value
      then markUsedVariable value;; mret None
      else mret None
  | _ => mret None
  end.

(** The outer visitor of [trackUsedVariables] (lines 72-82). *)
Definition visit_var_call (node : ValueAstNode)
    : M (option ValueWalkAction) :=
  match node with
  | ValueFunctionNode value nodes =>
      if decide (value = js "var")
      then walk visit_var_argument nodes;; mret (Some Skip)
      else mret None
  | _ => mret None
  end.

Definition trackUsedVariables_map : DefaultMap jsstring bool :=
  {| entries := trackUsedVariables_cache;
     set_entries := set_trackUsedVariables_cache;
     factory := λ raw,
       walk visit_var_call (ValueParser_parse raw);;
       mret true |}.

(** *** The methods of the design system *)

Definition buildDesignSystem (theme : Ext) : DesignSystem :=
  {| ext := theme; arrays := []; parsedVariants := [];
     parsedCandidates := []; compiledAstNodes := [];
     trackUsedVariables_cache := []; calls := [] |}.

Definition parseCandidate (candidate : jsstring) : M ArrayRef :=
  DefaultMap_get parsedCandidates_map candidate.

Definition parseVariant (variant : jsstring) : M (option Variant) :=
  DefaultMap_get parsedVariants_map variant.

Definition compileAstNodes (candidate : Candidate) : M (list AstEntry) :=
  DefaultMap_get compiledAstNodes_map candidate.

Definition trackUsedVariables (raw : jsstring) : M unit :=
  DefaultMap_get trackUsedVariables_map raw;; mret tt.

(** One turn of the loop of [candidatesToCss] (lines 98-114): the output
    for one class name, [None] for [null]. *)
Definition candidateToCss (className : jsstring) : M (option jsstring) :=
  let wasInvalid := false in
  '(astNodes, invalid_calls) ← call (compileCandidates [className]);
  let wasInvalid := Nat.iter invalid_calls (λ _, true) wasInvalid in
  astNodes ← call (optimizeAst astNodes);
  if (length astNodes =? 0)%nat || wasInvalid
  then mret None
  else λ ds, (Returned (Some (toCss astNodes (ext ds))), ds).

Fixpoint candidatesToCss_loop (classes : list jsstring)
    (result : list (option jsstring)) : M (list (option jsstring)) :=
  match classes with
  | [] => mret result
  | className :: rest =>
      entry ← candidateToCss className;
      candidatesToCss_loop rest (result ++ [entry])
  end.

Definition candidatesToCss (classes : list jsstring)
    : M (list (option jsstring)) :=
  candidatesToCss_loop classes [].

(** *** The variant order *)

(** The order [variants.sort((a, z) => this.variants.compare(a, z))] sorts
    by: [a] may stand before [z] when the comparator is not positive. *)
Definition compare_le (a z : option Variant) : Prop :=
  variants_compare a z <= 0.

#[global] Instance compare_le_dec : RelDecision compare_le.
Proof. intros a z. unfold compare_le. apply _. Defined.

(** [Array.prototype.sort] with the registry comparator.  ECMAScript asks
    for a stable sort, and for a consistent comparator every stable sort
    gives the same array; this one inserts from the right, so that an
    element stays before the later elements it is equal to. *)
Fixpoint sort_insert (a : option Variant) (sorted : list (option Variant))
    : list (option Variant) :=
  match sorted with
  | [] => [a]
  | z :: rest =>
      if decide (compare_le a z) then a :: z :: rest
      else z :: sort_insert a rest
  end.

Definition Array_sort (variants : list (option Variant))
    : list (option Variant) :=
  foldr sort_insert [] variants.

(** The variables of the loop of [getVariantOrder] (lines 142-144).  The
    keys of [order] are JavaScript values, a variant or [null] ([None]);
    [prevVariant] is [None] while it is [undefined]. *)
Record OrderLoop : Type := {
  order : JSMap (option Variant) nat;
  prevVariant : option Variant;
  index : nat;
}.

(** The body of the loop (lines 146-158). *)
Definition order_step (st : OrderLoop) (variant : option Variant)
    : OrderLoop :=
  match variant with
  | None => st
  | Some v =>
      let index :=
        match prevVariant st with
        | Some prev =>
            if negb (variants_compare (Some prev) (Some v) =? 0)
            then S (index st)
            else index st
        | None => index st
        end in
      {| order := Map_set (order st) (Some v) index;
         prevVariant := Some v;
         index := index |}
  end.

Definition getVariantOrder (ds : DesignSystem) : JSMap (option Variant) nat :=
  let variants := Array_sort (Map_values (parsedVariants ds)) in
  order
    (fold_left order_step variants
       {| order := []; prevVariant := None; index := 0 |}).

(** The array [compileAstNodes] caches for a candidate it has not seen: the
    collaborator's result, or nothing when substitution throws. *)
Definition compiled_result (c : Candidate) (e : Ext) : list AstEntry :=
  let ast := (compileAstNodes_ext c e).1 in
  match (substituteFunctions (entry_node <$> ast) (compileAstNodes_ext c e).2).1
  with
  | Returned _ => ast
  | Thrown _ => []
  end.

(** *** Sequences of calls

    The methods that change the design system, and the state a sequence
    of calls leaves behind. *)
Inductive Op : Type :=
  | OpParseCandidate (candidate : jsstring)
  | OpParseVariant (variant : jsstring)
  | OpCompileAstNodes (candidate : Candidate)
  | OpTrackUsedVariables (raw : jsstring)
  | OpCandidatesToCss (classes : list jsstring).

Definition perform (ds : DesignSystem) (op : Op) : DesignSystem :=
  match op with
  | OpParseCandidate candidate => (parseCandidate candidate ds).2
  | OpParseVariant variant => (parseVariant variant ds).2
  | OpCompileAstNodes candidate => (compileAstNodes candidate ds).2
  | OpTrackUsedVariables raw => (trackUsedVariables raw ds).2
  | OpCandidatesToCss classes => (candidatesToCss classes ds).2
  end.

Definition exec (ops : list Op) (ds : DesignSystem) : DesignSystem :=
  fold_left perform ops ds.

(** How many calls in a log satisfy [p]. *)
Definition count_calls (p : Event -> bool) (log : list Event) : nat :=
  length (List.filter p log).

Definition is_parseCandidate_of (s : jsstring) (ev : Event) : bool :=
  match ev with
  | CallParseCandidate s' => bool_decide (s' = s)
  | _ => false
  end.

Definition is_parseVariant_of (s : jsstring) (ev : Event) : bool :=
  match ev with
  | CallParseVariant s' => bool_decide (s' = s)
  | _ => false
  end.

Definition is_compileAstNodes_of (c : Candidate) (ev : Event) : bool :=
  match ev with
  | CallCompileAstNodes c' => bool_decide (c' = c)
  | _ => false
  end.

Definition is_substituteFunctions_of (c : Candidate) (ev : Event) : bool :=
  match ev with
  | CallSubstituteFunctions c' _ => bool_decide (c' = c)
  | _ => false
  end.

Definition is_markUsedVariable_of (name : jsstring) (ev : Event) : bool :=
  match ev with
  | CallMarkUsedVariable name' => bool_decide (name' = name)
  | _ => false
  end.
End DesignSystem.
Arguments entries {_ K V} _ _.
Arguments set_entries {_ K V} _ _ _.
Arguments factory {_ K V} _ _.

(** ** Vocabulary of the properties *)

Section Vocabulary.
Context `{Collaborators}.

(** A step that leaves the parse caches, the compiled nodes and the
    allocated arrays alone, and calls no collaborator the log records
    other than [markUsedVariable]. *)
Definition quiet (ds ds' : DesignSystem) : Prop :=
  arrays ds' = arrays ds /\
  parsedVariants ds' = parsedVariants ds /\
  parsedCandidates ds' = parsedCandidates ds /\
  compiledAstNodes ds' = compiledAstNodes ds /\
  exists names : list jsstring,
    calls ds' = calls ds ++ (CallMarkUsedVariable <$> names).

(** [1] for a key the map holds, [0] otherwise. *)
Definition held {K V} `{EqDecision K} (m : JSMap K V) (k : K) : nat :=
  match Map_get m k with Some _ => 1%nat | None => 0%nat end.

(** Every cached key was computed by exactly one call of its collaborator,
    and nothing else was computed. *)
Definition computed_once (ds : DesignSystem) : Prop :=
  (forall s, count_calls (is_parseCandidate_of s) (calls ds)
             = held (parsedCandidates ds) s) /\
  (forall s, count_calls (is_parseVariant_of s) (calls ds)
             = held (parsedVariants ds) s) /\
  (forall c, count_calls (is_compileAstNodes_of c) (calls ds)
             = held (compiledAstNodes ds) c) /\
  (forall c, count_calls (is_substituteFunctions_of c) (calls ds)
             = held (compiledAstNodes ds) c).

(** The caches only grow: what [ds] holds, [ds'] holds too. *)
Definition caches_kept (ds ds' : DesignSystem) : Prop :=
  (forall s r, Map_get (parsedCandidates ds) s = Some r ->
               Map_get (parsedCandidates ds') s = Some r) /\
  (forall s v, Map_get (parsedVariants ds) s = Some v ->
               Map_get (parsedVariants ds') s = Some v) /\
  (forall c ast, Map_get (compiledAstNodes ds) c = Some ast ->
                 Map_get (compiledAstNodes ds') c = Some ast).

(** A computation that returns, and whose step is in [R]. *)
Definition keeps {A} (R : relation DesignSystem) (m : M A) : Prop :=
  forall ds, exists a, (m ds).1 = Returned a /\ R ds (m ds).2.

(** A consistent comparator, as [Array.prototype.sort] expects: swapping
    the arguments swaps the sign, and "not after" is transitive. *)
Definition consistent_comparator
    (compare : option Variant -> option Variant -> Z) : Prop :=
  (forall a z, Z.sgn (compare z a) = - Z.sgn (compare a z)) /\
  (forall a b c, compare a b <= 0 -> compare b c <= 0 -> compare a c <= 0).

(** The variants of an array, without its [null]s. *)
Definition non_null (variants : list (option Variant)) : list Variant :=
  omap id variants.

(** What the loop of [getVariantOrder] keeps true when the array is
    sorted by a consistent comparator: the last variant set holds the
    current index, no key holds a greater one, a key holds the current
    index exactly when it is equivalent to the last variant, and two keys
    compare as their indices do. *)
Definition order_ok (st : OrderLoop) : Prop :=
  (forall p, prevVariant st = Some p ->
     Map_get (order st) (Some p) = Some (index st)) /\
  (forall x k, Map_get (order st) x = Some k ->
     exists p, prevVariant st = Some p /\ compare_le x (Some p) /\
               (k <= index st)%nat /\
               (k = index st <-> variants_compare x (Some p) = 0)) /\
  (forall x y kx ky,
     Map_get (order st) x = Some kx -> Map_get (order st) y = Some ky ->
     ((kx < ky)%nat <-> variants_compare x y < 0)).

(** The words with two leading dashes under a node, at any depth, in
    document order. *)
Fixpoint dash_words (node : ValueAstNode) : list jsstring :=
  match node with
  | ValueWordNode value =>
      if starts_with_two_dashes value then [value] else []
  | ValueFunctionNode _ nodes => flat_map dash_words nodes
  | ValueSeparatorNode _ => []
  end.

(** The custom properties a value refers to: the dashed words under its
    outermost [var()] calls. *)
Fixpoint var_marks (node : ValueAstNode) : list jsstring :=
  match node with
  | ValueFunctionNode value nodes =>
      if decide (value = js "var") then flat_map dash_words nodes
      else flat_map var_marks nodes
  | _ => []
  end.

(** The design system after [theme.markUsedVariable] was called on each
    name in turn. *)
Definition mark_all (names : list jsstring) (ds : DesignSystem)
    : DesignSystem :=
  set_ext
    (fold_left (λ e name, theme_markUsedVariable name e) names (ext ds))
    (set_calls (calls ds ++ (CallMarkUsedVariable <$> names)) ds).

(** The tracker's cache and the allocated arrays only grow. *)
Definition tracker_kept (ds ds' : DesignSystem) : Prop :=
  forall raw b, Map_get (trackUsedVariables_cache ds) raw = Some b ->
                Map_get (trackUsedVariables_cache ds') raw = Some b.

Definition arrays_kept (ds ds' : DesignSystem) : Prop :=
  forall (array : ArrayRef) items,
    arrays ds !! array = Some items -> arrays ds' !! array = Some items.

(** Every cached array reference is allocated, and no two strings share
    one. *)
Definition arrays_ok (ds : DesignSystem) : Prop :=
  (forall s array, Map_get (parsedCandidates ds) s = Some array ->
                   (array < length (arrays ds))%nat) /\
  (forall s1 s2 array,
     Map_get (parsedCandidates ds) s1 = Some array ->
     Map_get (parsedCandidates ds) s2 = Some array -> s1 = s2).

(** The indices of the loop of [getVariantOrder] leave no gap: every
    index up to the current one is held by some key, and the index is [0]
    until a variant was seen. *)
Definition order_contiguous (st : OrderLoop) : Prop :=
  (prevVariant st = None -> index st = 0%nat) /\
  (forall j, (j <= index st)%nat -> prevVariant st <> None ->
     exists y, Map_get (order st) y = Some j).

End Vocabulary.

(** ** A small set of collaborators

    Stub collaborators to run the design system on: variants and
    candidates are tokens, the theme holds two entries, and substitution
    fails on the node [theme(--x)]. *)

Module Stub.

Definition has_unit (c : N) (s : jsstring) : bool :=
  existsb (N.eqb c) s.

(** A variant string parses to its first code unit; the empty string is
    no variant. *)
Definition parse_variant (variant : jsstring) (theme : nat)
    : option N * nat :=
  (head variant, theme).

(** Variants rank by half their code, and [null] sorts first. *)
Definition compare (a z : option N) : Z :=
  match a, z with
  | None, None => 0
  | None, Some _ => -1
  | Some _, None => 1
  | Some x, Some y => Z.sgn (Z.of_N (x / 2) - Z.of_N (y / 2))
  end.

Definition substitute (nodes : list jsstring) (theme : nat)
    : Outcome unit unit * nat :=
  if bool_decide (js "theme(--x)" ∈ nodes)
  then (Thrown tt, theme)
  else (Returned tt, theme).

(** A class name holding [!] is invalid: it compiles to nothing and the
    callback is called once for it. *)
Definition compile_candidates (classes : list jsstring) (theme : nat)
    : (list jsstring * nat) * nat :=
  ((List.filter (λ c, negb (has_unit 33 c)) classes,
    length (List.filter (has_unit 33) classes)), theme).

Definition get (path : list jsstring) (theme : nat) : JsValue :=
  if bool_decide (path = [js "--color-red-500"]) then JsString (js "red")
  else if bool_decide (path = [js "--empty"]) then JsString []
  else JsNull.

#[global] Instance collaborators : Collaborators := {|
  Ext := nat;
  Variant := N;
  Candidate := jsstring;
  AstNode := jsstring;
  AstEntry := jsstring;
  Error := unit;
  parseCandidate_ext := λ s theme, ([s], theme);
  parseVariant_ext := parse_variant;
  compileAstNodes_ext := λ c theme, ([c], theme);
  entry_node := id;
  compileCandidates := compile_candidates;
  substituteFunctions := substitute;
  optimizeAst := λ nodes theme, (nodes, theme);
  toCss := λ nodes theme, concat nodes;
  theme_get := get;
  theme_markUsedVariable := λ name theme, S theme;
  variants_compare := compare;
  withAlpha := λ value alpha, value ++ js " / " ++ alpha;
|}.

End Stub.

(** * Properties *)

(** ** Strings *)

Section StringFacts.

Lemma lastIndexOf_from_absent (s : jsstring) (c : N) (i : Z) :
  c ∉ s -> lastIndexOf_from s c i = -1.
Proof.
  revert i. induction s as [|x s IH]; intros i Hc; simpl; [done|].
  apply not_elem_of_cons in Hc as [Hx Hs].
  rewrite (IH _ Hs). simpl.
  destruct (N.eqb_spec x c); congruence.
Qed.

Lemma lastIndexOf_from_split (before after : jsstring) (c : N) (i : Z) :
  0 <= i -> c ∉ after ->
  lastIndexOf_from (before ++ c :: after) c i = i + Z.of_nat (length before).
Proof.
  revert i. induction before as [|x before IH]; intros i Hi Hc; simpl.
  - rewrite (lastIndexOf_from_absent _ _ _ Hc). simpl.
    rewrite N.eqb_refl. lia.
  - rewrite IH by (done || lia).
    destruct (Z.eqb_spec (i + 1 + Z.of_nat (length before)) (-1)); simpl; lia.
Qed.

Lemma lastIndexOf_absent (s : jsstring) (c : N) :
  c ∉ s -> lastIndexOf s c = -1.
Proof. apply lastIndexOf_from_absent. Qed.

Lemma lastIndexOf_split (before after : jsstring) (c : N) :
  c ∉ after ->
  lastIndexOf (before ++ c :: after) c = Z.of_nat (length before).
Proof.
  intros Hc. unfold lastIndexOf.
  rewrite lastIndexOf_from_split by (done || lia). lia.
Qed.

Lemma slice_before (before after : jsstring) (c : N) :
  slice (before ++ c :: after) 0 (Z.of_nat (length before)) = before.
Proof.
  unfold slice, slice_index. rewrite length_app. simpl.
  destruct (Z.ltb_spec 0 0); [lia|].
  destruct (Z.ltb_spec (Z.of_nat (length before)) 0); [lia|].
  rewrite Z.min_l, Z.min_l by lia. simpl.
  rewrite Z.sub_0_r, Nat2Z.id. change (Z.to_nat 0) with 0%nat.
  rewrite drop_0. by rewrite take_app_length.
Qed.

Lemma slice_from_after (before after : jsstring) (c : N) :
  slice_from (before ++ c :: after) (Z.of_nat (length before) + 1) = after.
Proof.
  unfold slice_from, slice, slice_index. rewrite length_app. simpl.
  destruct (Z.ltb_spec (Z.of_nat (length before) + 1) 0); [lia|].
  destruct (Z.ltb_spec (Z.of_nat (length before + S (length after))) 0);
    [lia|].
  rewrite Z.min_l, Z.min_l by lia.
  replace (Z.to_nat (Z.of_nat (length before) + 1))
    with (length before + 1)%nat by lia.
  replace (before ++ c :: after) with ((before ++ [c]) ++ after)
    by (by rewrite <- app_assoc).
  rewrite drop_app_length' by (rewrite length_app; simpl; lia).
  apply take_ge. lia.
Qed.

Lemma trimStart_whitespace (s : jsstring) :
  forallb is_whitespace s = true -> trimStart s = [].
Proof.
  induction s as [|c s IH]; simpl; [done|].
  destruct (is_whitespace c); simpl; [done|discriminate].
Qed.

Lemma trim_whitespace (s : jsstring) :
  forallb is_whitespace s = true -> trim s = [].
Proof.
  intros Hs. unfold trim, trimEnd. by rewrite (trimStart_whitespace _ Hs).
Qed.

(** How [split_modifier] splits: at the last [/] when there is one. *)
Lemma split_modifier_no_slash (path : jsstring) :
  SLASH ∉ path -> split_modifier path = (JsNull, path).
Proof.
  intros Hp. unfold split_modifier. by rewrite (lastIndexOf_absent _ _ Hp).
Qed.

Lemma split_modifier_slash (before after : jsstring) :
  SLASH ∉ after ->
  split_modifier (before ++ SLASH :: after)
  = (JsString (trim after), trim before).
Proof.
  intros Ha. unfold split_modifier.
  rewrite (lastIndexOf_split _ _ _ Ha).
  destruct (Z.eqb_spec (Z.of_nat (length before)) (-1)); [lia|]. simpl.
  by rewrite slice_before, slice_from_after.
Qed.

End StringFacts.

(** ** The theme-value resolver *)

Section ResolveThemeValueFacts.
Context `{Collaborators}.

(** What [resolveThemeValue] returns once the split is known. *)
Lemma resolveThemeValue_unfold (path lookup : jsstring) (modifier : JsValue)
    (ext : Ext) :
  split_modifier path = (modifier, lookup) ->
  resolveThemeValue path ext =
    match theme_get [lookup] ext, modifier with
    | JsString (c :: value), JsString (a :: alpha) =>
        JsString (withAlpha (c :: value) (a :: alpha))
    | themeValue, _ => nullish themeValue JsUndefined
    end.
Proof.
  intros Hsplit. unfold resolveThemeValue. rewrite Hsplit.
  destruct (theme_get [lookup] ext) as [| |[|c value]];
    destruct modifier as [| |[|a alpha]]; reflexivity.
Qed.

(** C6, as amended.  [resolveThemeValue] splits the path at its last [/]
    into the trimmed text before it (the lookup path) and the trimmed text
    after it (the modifier); without a [/] the whole string is the lookup
    path and there is no modifier.  The result is [undefined] whenever the
    theme has no value for the lookup path, whatever the modifier.  When
    the theme has a non-empty value and the modifier is non-empty, the
    result is [withAlpha(value, modifier)]; otherwise it is the theme's
    value, unchanged. *)
Theorem resolveThemeValue_split_and_alpha (path : jsstring) (ext : Ext) :
  (SLASH ∉ path ->
   resolveThemeValue path ext = nullish (theme_get [path] ext) JsUndefined)
  /\
  (forall before after : jsstring,
     path = before ++ SLASH :: after -> SLASH ∉ after ->
     resolveThemeValue path ext =
       match theme_get [trim before] ext with
       | JsString value =>
           if bool_decide (value <> [] /\ trim after <> [])
           then JsString (withAlpha value (trim after))
           else JsString value
       | _ => JsUndefined
       end).
Proof.
  split.
  - intros Hp.
    rewrite (resolveThemeValue_unfold _ _ _ _ (split_modifier_no_slash _ Hp)).
    by destruct (theme_get [path] ext) as [| |[|c value]].
  - intros before after -> Ha.
    rewrite (resolveThemeValue_unfold _ _ _ _ (split_modifier_slash _ _ Ha)).
    destruct (theme_get [trim before] ext) as [| |[|c value]]; try done.
    destruct (trim after) as [|a alpha]; case_bool_decide as Hd; try done.
    + by destruct Hd.
    + destruct Hd. done.
Qed.

(** C9.  When the text after the last [/] is empty or all whitespace, no
    alpha is applied: the result is the theme's value for the trimmed text
    before that [/] (with [null] read as [undefined], as everywhere in
    [resolveThemeValue]). *)
Theorem resolveThemeValue_blank_modifier (before after : jsstring) (ext : Ext) :
  forallb is_whitespace after = true ->
  resolveThemeValue (before ++ SLASH :: after) ext
  = nullish (theme_get [trim before] ext) JsUndefined.
Proof.
  intros Hws.
  assert (Ha : SLASH ∉ after).
  { intros Hin. rewrite forallb_forall in Hws.
    apply list_elem_of_In, Hws in Hin. discriminate. }
  rewrite (resolveThemeValue_unfold _ _ _ _ (split_modifier_slash _ _ Ha)).
  rewrite (trim_whitespace _ Hws).
  by destruct (theme_get [trim before] ext) as [| |[|c value]].
Qed.

(** C10.  [resolveThemeValue] never returns [null]: where the theme's [get]
    answers [null] for the lookup path, the result is [undefined]. *)
Theorem resolveThemeValue_never_null (path : jsstring) (ext : Ext) :
  resolveThemeValue path ext <> JsNull /\
  (theme_get [(split_modifier path).2] ext = JsNull ->
   resolveThemeValue path ext = JsUndefined).
Proof.
  destruct (split_modifier path) as [modifier lookup] eqn:Hsplit.
  rewrite (resolveThemeValue_unfold _ _ _ _ Hsplit). simpl. split.
  - destruct (theme_get [lookup] ext) as [| |[|c value]];
      destruct modifier as [| |[|a alpha]]; done.
  - by intros ->.
Qed.

End ResolveThemeValueFacts.

(** The resolver on the stub theme: the example of the specification and a
    path without modifier. *)
Lemma resolveThemeValue_split_and_alpha_witness :
  resolveThemeValue (H := Stub.collaborators) (js "--color-red-500 / 50%") 0%nat
    = JsString (js "red / 50%") /\
  resolveThemeValue (H := Stub.collaborators) (js "--color-red-500") 0%nat
    = JsString (js "red").
Proof.
  destruct (resolveThemeValue_split_and_alpha (H := Stub.collaborators)
              (js "--color-red-500") 0%nat) as [Hno _].
  destruct (resolveThemeValue_split_and_alpha (H := Stub.collaborators)
              (js "--color-red-500 / 50%") 0%nat) as [_ Hsplit].
  split.
  - rewrite (Hsplit (js "--color-red-500 ") (js " 50%")).
    + reflexivity.
    + reflexivity.
    + compute_done.
  - rewrite Hno.
    + reflexivity.
    + compute_done.
Defined.

(** C6 as the specification words it fails on the stub theme: with a [/]
    and nothing after it the value comes back without alpha, and so does
    an empty value under the modifier [50%]. *)
Lemma resolveThemeValue_alpha_counterexample :
  ~ (forall path before after value : jsstring,
       path = before ++ SLASH :: after -> SLASH ∉ after ->
       theme_get (Collaborators := Stub.collaborators) [trim before] 0%nat
         = JsString value ->
       resolveThemeValue (H := Stub.collaborators) path 0%nat
         = JsString (withAlpha value (trim after)))
  /\
  ~ (forall path before after value : jsstring,
       path = before ++ SLASH :: after -> SLASH ∉ after ->
       trim after <> [] ->
       theme_get (Collaborators := Stub.collaborators) [trim before] 0%nat
         = JsString value ->
       resolveThemeValue (H := Stub.collaborators) path 0%nat
         = JsString (withAlpha value (trim after))).
Proof.
  split; intros Hclaim.
  - specialize (Hclaim (js "--color-red-500/") (js "--color-red-500") []
                  (js "red") eq_refl).
    discriminate Hclaim; [compute_done|reflexivity].
  - specialize (Hclaim (js "--empty/50%") (js "--empty") (js "50%")
                  [] eq_refl).
    discriminate Hclaim; [compute_done|done|reflexivity].
Qed.

Lemma resolveThemeValue_blank_modifier_witness :
  resolveThemeValue (H := Stub.collaborators)
    (js "--color-red-500 " ++ SLASH :: js "  ") 0%nat
  = JsString (js "red").
Proof.
  rewrite (resolveThemeValue_blank_modifier (H := Stub.collaborators)
             (js "--color-red-500 ") (js "  ") 0%nat).
  - reflexivity.
  - reflexivity.
Defined.

Lemma resolveThemeValue_never_null_witness :
  resolveThemeValue (H := Stub.collaborators) (js "--missing / 50%") 0%nat
  = JsUndefined.
Proof.
  apply (resolveThemeValue_never_null (H := Stub.collaborators)
           (js "--missing / 50%") 0%nat).
  reflexivity.
Defined.

(** ** Maps *)

Section JSMapFacts.
Context {K V : Type} `{EqDecision K}.
Implicit Types (m : JSMap K V) (k : K) (v : V).

Lemma Map_get_set_eq m k v : Map_get (Map_set m k v) k = Some v.
Proof.
  induction m as [|[k' v'] m IH]; simpl.
  - by rewrite decide_True.
  - destruct (decide (k' = k)) as [->|Hne]; simpl.
    + by rewrite decide_True.
    + by rewrite decide_False.
Qed.

Lemma Map_get_set_ne m k k' v :
  k <> k' -> Map_get (Map_set m k v) k' = Map_get m k'.
Proof.
  intros Hne. induction m as [|[k0 v0] m IH]; simpl.
  - by rewrite decide_False.
  - destruct (decide (k0 = k)) as [->|Hne0]; simpl.
    + by rewrite !decide_False.
    + destruct (decide (k0 = k')); [done|apply IH].
Qed.

Lemma Map_get_set m k k' v :
  Map_get (Map_set m k v) k'
  = if decide (k = k') then Some v else Map_get m k'.
Proof.
  destruct (decide (k = k')) as [->|Hne].
  - apply Map_get_set_eq.
  - by apply Map_get_set_ne.
Qed.

Lemma Map_get_Some_values m k v : Map_get m k = Some v -> v ∈ Map_values m.
Proof.
  induction m as [|[k' v'] m IH]; simpl; [done|].
  destruct (decide (k' = k)).
  - intros [= ->]. unfold Map_values. simpl. left.
  - intros Hm. unfold Map_values. simpl. right. by apply IH.
Qed.

End JSMapFacts.

(** ** The caches *)

Section CacheFacts.
Context `{Collaborators}.

Lemma count_calls_app (p : Event -> bool) (l1 l2 : list Event) :
  count_calls p (l1 ++ l2) = (count_calls p l1 + count_calls p l2)%nat.
Proof. unfold count_calls. by rewrite List.filter_app, length_app. Qed.

(** A lookup that hits returns the stored value and changes nothing. *)
Lemma DefaultMap_get_hit {K V} `{EqDecision K} (m : DefaultMap K V)
    (key : K) (value : V) (ds : DesignSystem) :
  Map_get (entries m ds) key = Some value ->
  DefaultMap_get m key ds = (Returned value, ds).
Proof. intros Hm. unfold DefaultMap_get. by rewrite Hm. Qed.

(** What a first [parseCandidate] does. *)
Lemma parseCandidate_miss (s : jsstring) (ds : DesignSystem) :
  Map_get (parsedCandidates ds) s = None ->
  parseCandidate s ds =
    (Returned (length (arrays ds)),
     {| ext := (parseCandidate_ext s (ext ds)).2;
        arrays := arrays ds ++ [(parseCandidate_ext s (ext ds)).1];
        parsedVariants := parsedVariants ds;
        parsedCandidates :=
          Map_set (parsedCandidates ds) s (length (arrays ds));
        compiledAstNodes := compiledAstNodes ds;
        trackUsedVariables_cache := trackUsedVariables_cache ds;
        calls := calls ds ++ [CallParseCandidate s] |}).
Proof.
  intros Hm. unfold parseCandidate, DefaultMap_get. simpl. rewrite Hm.
  unfold mbind, M_bind, record, call, Array_from. simpl.
  by destruct (parseCandidate_ext s (ext ds)).
Qed.

(** What a first [parseVariant] does. *)
Lemma parseVariant_miss (s : jsstring) (ds : DesignSystem) :
  Map_get (parsedVariants ds) s = None ->
  parseVariant s ds =
    (Returned (parseVariant_ext s (ext ds)).1,
     {| ext := (parseVariant_ext s (ext ds)).2;
        arrays := arrays ds;
        parsedVariants :=
          Map_set (parsedVariants ds) s (parseVariant_ext s (ext ds)).1;
        parsedCandidates := parsedCandidates ds;
        compiledAstNodes := compiledAstNodes ds;
        trackUsedVariables_cache := trackUsedVariables_cache ds;
        calls := calls ds ++ [CallParseVariant s] |}).
Proof.
  intros Hm. unfold parseVariant, DefaultMap_get. simpl. rewrite Hm.
  unfold mbind, M_bind, record, call. simpl.
  by destruct (parseVariant_ext s (ext ds)).
Qed.

(** What a first [compileAstNodes] does. *)
Lemma compileAstNodes_miss (c : Candidate) (ds : DesignSystem) :
  Map_get (compiledAstNodes ds) c = None ->
  let ast := (compileAstNodes_ext c (ext ds)).1 in
  let e1 := (compileAstNodes_ext c (ext ds)).2 in
  compileAstNodes c ds =
    (Returned (compiled_result c (ext ds)),
     {| ext := (substituteFunctions (entry_node <$> ast) e1).2;
        arrays := arrays ds;
        parsedVariants := parsedVariants ds;
        parsedCandidates := parsedCandidates ds;
        compiledAstNodes :=
          Map_set (compiledAstNodes ds) c (compiled_result c (ext ds));
        trackUsedVariables_cache := trackUsedVariables_cache ds;
        calls := calls ds ++ [CallCompileAstNodes c]
                 ++ [CallSubstituteFunctions c (entry_node <$> ast)] |}).
Proof.
  intros Hm. unfold compileAstNodes, DefaultMap_get, compiled_result.
  simpl. rewrite Hm.
  unfold mbind, M_bind, try_catch, record, call, call_throwing, mret, M_ret.
  simpl. destruct (compileAstNodes_ext c (ext ds)) as [ast e1]. simpl.
  destruct (substituteFunctions (entry_node <$> ast) e1) as [[[]|err] e2];
    simpl; by rewrite <- app_assoc.
Qed.

End CacheFacts.

(** ** Steps that leave the caches alone *)

Section QuietFacts.
Context `{Collaborators}.

#[local] Instance quiet_preorder : PreOrder quiet.
Proof.
  split.
  - intros ds. repeat split. exists []. simpl. by rewrite app_nil_r.
  - intros ds1 ds2 ds3 (Ha & Hv & Hc & Hn & names & Hl)
      (Ha' & Hv' & Hc' & Hn' & names' & Hl').
    repeat split; try congruence.
    exists (names ++ names'). rewrite Hl', Hl, fmap_app. by rewrite app_assoc.
Qed.

Lemma ValueAstNode_nested_ind (P : ValueAstNode -> Prop) :
  (forall value, P (ValueWordNode value)) ->
  (forall value nodes, Forall P nodes -> P (ValueFunctionNode value nodes)) ->
  (forall value, P (ValueSeparatorNode value)) ->
  forall node, P node.
Proof.
  intros Hword Hfun Hsep.
  fix IH 1. intros [value|value nodes|value].
  - apply Hword.
  - apply Hfun. induction nodes as [|node nodes IHnodes].
    + constructor.
    + constructor; [apply IH|apply IHnodes].
  - apply Hsep.
Qed.

Lemma keeps_ret {A} (R : relation DesignSystem) `{!PreOrder R} (a : A) :
  keeps R (mret a).
Proof. intros ds. exists a. split; [done|]. simpl. reflexivity. Qed.

Lemma keeps_bind {A B} (R : relation DesignSystem) `{!PreOrder R}
    (m : M A) (f : A -> M B) :
  keeps R m -> (forall a, keeps R (f a)) -> keeps R (m ≫= f).
Proof.
  intros Hm Hf ds. unfold mbind, M_bind.
  destruct (Hm ds) as (a & Ha & HR). destruct (m ds) as [r ds1].
  simpl in *. subst r.
  destruct (Hf a ds1) as (b & Hb & HR'). exists b. split; [done|].
  by etrans.
Qed.

Lemma walk_node_keeps (R : relation DesignSystem) `{!PreOrder R}
    (visit : ValueAstNode -> M (option ValueWalkAction)) :
  (forall node, keeps R (visit node)) ->
  forall node, keeps R (walk_node visit node).
Proof.
  intros Hvisit node.
  induction node as [value|value nodes IH|value] using ValueAstNode_nested_ind;
    simpl; apply keeps_bind; try done; intros [[| |]|]; simpl;
    try apply keeps_ret; try done.
  all: induction IH as [|node nodes Hnode _ IHnodes];
    [by apply keeps_ret|].
  all: apply keeps_bind; [done..|].
  all: intros [|]; [by apply keeps_ret|apply IHnodes].
Qed.

Lemma walk_keeps (R : relation DesignSystem) `{!PreOrder R}
    (visit : ValueAstNode -> M (option ValueWalkAction))
    (ast : list ValueAstNode) :
  (forall node, keeps R (visit node)) -> keeps R (walk visit ast).
Proof.
  intros Hvisit. induction ast as [|node ast IH]; simpl.
  - by apply keeps_ret.
  - apply keeps_bind; [done|by apply walk_node_keeps|].
    intros [|]; [by apply keeps_ret|apply IH].
Qed.

Lemma markUsedVariable_quiet (name : jsstring) :
  keeps quiet (markUsedVariable name).
Proof.
  intros ds. exists tt. split; [done|].
  repeat split. by exists [name].
Qed.

Lemma visit_var_argument_quiet (child : ValueAstNode) :
  keeps quiet (visit_var_argument child).
Proof.
  destruct child as [value|value nodes|value]; simpl;
    try apply (keeps_ret _).
  destruct (starts_with_two_dashes value); [|apply (keeps_ret _)].
  apply (keeps_bind _); [apply markUsedVariable_quiet|].
  intros _. apply (keeps_ret _).
Qed.

Lemma visit_var_call_quiet (node : ValueAstNode) :
  keeps quiet (visit_var_call node).
Proof.
  destruct node as [value|value nodes|value]; simpl;
    try apply (keeps_ret _).
  destruct (decide (value = js "var")); [|apply (keeps_ret _)].
  apply (keeps_bind _).
  - apply (walk_keeps _). apply visit_var_argument_quiet.
  - intros _. apply (keeps_ret _).
Qed.

Lemma trackUsedVariables_quiet (raw : jsstring) :
  keeps quiet (trackUsedVariables raw).
Proof.
  intros ds. unfold trackUsedVariables, mbind, M_bind, DefaultMap_get.
  simpl. destruct (Map_get (trackUsedVariables_cache ds) raw).
  - exists tt. split; [done|]. simpl. reflexivity.
  - destruct (walk_keeps quiet visit_var_call (ValueParser_parse raw)
                visit_var_call_quiet ds) as (b & Hb & Hq).
    unfold mbind, M_bind.
    destruct (walk visit_var_call (ValueParser_parse raw) ds) as [r ds1].
    simpl in *. subst r. simpl. exists tt. split; [done|].
    destruct Hq as (? & ? & ? & ? & ?). by repeat split.
Qed.

Lemma candidateToCss_quiet (className : jsstring) :
  keeps quiet (candidateToCss className).
Proof.
  intros ds. unfold candidateToCss, mbind, M_bind, call. simpl.
  destruct (compileCandidates [className] (ext ds)) as [[astNodes n] e1].
  simpl. destruct (optimizeAst astNodes e1) as [optimized e2]. simpl.
  destruct (_ || _); simpl; eexists; (split; [done|]);
    repeat split; exists []; simpl; by rewrite app_nil_r.
Qed.

Lemma candidatesToCss_loop_quiet (classes : list jsstring)
    (result : list (option jsstring)) :
  keeps quiet (candidatesToCss_loop classes result).
Proof.
  revert result. induction classes as [|className classes IH];
    intros result; simpl.
  - apply (keeps_ret _).
  - apply (keeps_bind _); [apply candidateToCss_quiet|].
    intros entry. apply IH.
Qed.

End QuietFacts.

(** ** Invariants of the caches *)

Section CacheInvariants.
Context `{Collaborators}.

Lemma count_calls_marks (p : Event -> bool) (names : list jsstring) :
  (forall name, p (CallMarkUsedVariable name) = false) ->
  count_calls p (CallMarkUsedVariable <$> names) = 0%nat.
Proof.
  intros Hp. induction names as [|name names IH]; [done|].
  unfold count_calls in *. simpl. by rewrite Hp.
Qed.

Lemma held_le_1 {K V} `{EqDecision K} (m : JSMap K V) (k : K) :
  (held m k <= 1)%nat.
Proof. unfold held. destruct (Map_get m k); lia. Qed.

Lemma held_set {K V} `{EqDecision K} (m : JSMap K V) (k k' : K) (v : V) :
  Map_get m k = None ->
  held (Map_set m k v) k'
  = (held m k' + if decide (k = k') then 1 else 0)%nat.
Proof.
  intros Hm. unfold held. rewrite Map_get_set.
  destruct (decide (k = k')) as [<-|]; [by rewrite Hm|].
  destruct (Map_get m k'); lia.
Qed.

#[local] Instance caches_kept_preorder : PreOrder caches_kept.
Proof.
  split.
  - intros ds. by repeat split.
  - intros ds1 ds2 ds3 (Hc & Hv & Hn) (Hc' & Hv' & Hn').
    repeat split; eauto.
Qed.

Lemma quiet_caches_kept (ds ds' : DesignSystem) :
  quiet ds ds' -> caches_kept ds ds'.
Proof.
  intros (_ & Hv & Hc & Hn & _). unfold caches_kept. rewrite Hv, Hc, Hn. done.
Qed.

Lemma quiet_computed_once (ds ds' : DesignSystem) :
  quiet ds ds' -> computed_once ds -> computed_once ds'.
Proof.
  intros (_ & Hv & Hc & Hn & names & Hl) (Ic & Iv & In & Is).
  unfold computed_once. rewrite Hv, Hc, Hn, Hl.
  repeat split; intros k; rewrite count_calls_app, count_calls_marks;
    try done; rewrite Nat.add_0_r; auto.
Qed.

Lemma parseCandidate_step (s : jsstring) (ds : DesignSystem) :
  computed_once ds ->
  let ds' := (parseCandidate s ds).2 in
  computed_once ds' /\ caches_kept ds ds' /\
  exists array, (parseCandidate s ds).1 = Returned array /\
                Map_get (parsedCandidates ds') s = Some array.
Proof.
  intros (Ic & Iv & In & Is).
  destruct (Map_get (parsedCandidates ds) s) as [array|] eqn:Hm.
  - unfold parseCandidate.
    rewrite (DefaultMap_get_hit parsedCandidates_map s array ds Hm). simpl.
    split; [done|]. split; [reflexivity|]. by exists array.
  - rewrite (parseCandidate_miss _ _ Hm). simpl. split; [|split].
    + repeat split; simpl; intros k.
      * rewrite (held_set _ _ _ _ Hm), count_calls_app, Ic.
        unfold count_calls. simpl.
        destruct (decide (s = k)); case_bool_decide; simpl; congruence.
      * rewrite count_calls_app, Iv. unfold count_calls. simpl. lia.
      * rewrite count_calls_app, In. unfold count_calls. simpl. lia.
      * rewrite count_calls_app, Is. unfold count_calls. simpl. lia.
    + repeat split; simpl; try done.
      intros k r Hk. rewrite Map_get_set_ne; [done|congruence].
    + eexists. split; [done|]. apply Map_get_set_eq.
Qed.

Lemma parseVariant_step (s : jsstring) (ds : DesignSystem) :
  computed_once ds ->
  let ds' := (parseVariant s ds).2 in
  computed_once ds' /\ caches_kept ds ds' /\
  exists variant, (parseVariant s ds).1 = Returned variant /\
                  Map_get (parsedVariants ds') s = Some variant.
Proof.
  intros (Ic & Iv & In & Is).
  destruct (Map_get (parsedVariants ds) s) as [variant|] eqn:Hm.
  - unfold parseVariant.
    rewrite (DefaultMap_get_hit parsedVariants_map s variant ds Hm). simpl.
    split; [done|]. split; [reflexivity|]. by exists variant.
  - rewrite (parseVariant_miss _ _ Hm). simpl. split; [|split].
    + repeat split; simpl; intros k.
      * rewrite count_calls_app, Ic. unfold count_calls. simpl. lia.
      * rewrite (held_set _ _ _ _ Hm), count_calls_app, Iv.
        unfold count_calls. simpl.
        destruct (decide (s = k)); case_bool_decide; simpl; congruence.
      * rewrite count_calls_app, In. unfold count_calls. simpl. lia.
      * rewrite count_calls_app, Is. unfold count_calls. simpl. lia.
    + repeat split; simpl; try done.
      intros k r Hk. rewrite Map_get_set_ne; [done|congruence].
    + eexists. split; [done|]. apply Map_get_set_eq.
Qed.

Lemma compileAstNodes_step (c : Candidate) (ds : DesignSystem) :
  computed_once ds ->
  let ds' := (compileAstNodes c ds).2 in
  computed_once ds' /\ caches_kept ds ds' /\
  exists ast, (compileAstNodes c ds).1 = Returned ast /\
              Map_get (compiledAstNodes ds') c = Some ast.
Proof.
  intros (Ic & Iv & In & Is).
  destruct (Map_get (compiledAstNodes ds) c) as [ast|] eqn:Hm.
  - unfold compileAstNodes.
    rewrite (DefaultMap_get_hit compiledAstNodes_map c ast ds Hm). simpl.
    split; [done|]. split; [reflexivity|]. by exists ast.
  - rewrite (compileAstNodes_miss _ _ Hm). simpl. split; [|split].
    + repeat split; simpl; intros k.
      * rewrite !count_calls_app, Ic. unfold count_calls. simpl. lia.
      * rewrite !count_calls_app, Iv. unfold count_calls. simpl. lia.
      * rewrite (held_set _ _ _ _ Hm), !count_calls_app, In.
        unfold count_calls. simpl.
        destruct (decide (c = k)); case_bool_decide; simpl; congruence.
      * rewrite (held_set _ _ _ _ Hm), !count_calls_app, Is.
        unfold count_calls. simpl.
        destruct (decide (c = k)); case_bool_decide; simpl; congruence.
    + repeat split; simpl; try done.
      intros k r Hk. rewrite Map_get_set_ne; [done|congruence].
    + eexists. split; [done|]. apply Map_get_set_eq.
Qed.

Lemma perform_step (op : Op) (ds : DesignSystem) :
  computed_once ds ->
  computed_once (perform ds op) /\ caches_kept ds (perform ds op).
Proof.
  intros Hinv. destruct op as [s|s|c|raw|classes]; simpl.
  - by destruct (parseCandidate_step s ds Hinv) as (? & ? & _).
  - by destruct (parseVariant_step s ds Hinv) as (? & ? & _).
  - by destruct (compileAstNodes_step c ds Hinv) as (? & ? & _).
  - destruct (trackUsedVariables_quiet raw ds) as (_ & _ & Hq).
    eauto using quiet_computed_once, quiet_caches_kept.
  - destruct (candidatesToCss_loop_quiet classes [] ds) as (_ & _ & Hq).
    eauto using quiet_computed_once, quiet_caches_kept.
Qed.

Lemma exec_step (ops : list Op) (ds : DesignSystem) :
  computed_once ds ->
  computed_once (exec ops ds) /\ caches_kept ds (exec ops ds).
Proof.
  revert ds. induction ops as [|op ops IH]; intros ds Hinv; simpl.
  - split; [done|reflexivity].
  - destruct (perform_step op ds Hinv) as [Hinv' Hkept].
    destruct (IH _ Hinv') as [Hinv'' Hkept'].
    split; [done|]. by etrans.
Qed.

Lemma buildDesignSystem_computed_once (theme : Ext) :
  computed_once (buildDesignSystem theme).
Proof. by repeat split. Qed.

End CacheInvariants.

(** ** The parse caches and the compiled-node cache *)

Section CacheTheorems.
Context `{Collaborators}.

(** [Array.from] never hands out an array twice: identity of the parse
    result is the cache's doing. *)
Lemma Array_from_fresh (items items' : list Candidate) (ds : DesignSystem) :
  (Array_from items' (Array_from items ds).2).1
  <> (Array_from items ds).1.
Proof.
  unfold Array_from. simpl. rewrite length_app. simpl.
  intros [= Heq]. lia.
Qed.

(** C1.  On one design system, whatever was called before and between,
    two calls of [parseCandidate] on a string return the same array object
    and two calls of [parseVariant] on a string return the same variant or
    [null]; and no history calls the external parser of either kind more
    than once for a string. *)
Theorem parse_caches_identity (theme : Ext) (before between : list Op)
    (s : jsstring) :
  let ds := exec before (buildDesignSystem theme) in
  (exists array : ArrayRef,
     (parseCandidate s ds).1 = Returned array /\
     (parseCandidate s (exec between (parseCandidate s ds).2)).1
       = Returned array) /\
  (exists variant : option Variant,
     (parseVariant s ds).1 = Returned variant /\
     (parseVariant s (exec between (parseVariant s ds).2)).1
       = Returned variant) /\
  (count_calls (is_parseCandidate_of s) (calls ds) <= 1)%nat /\
  (count_calls (is_parseVariant_of s) (calls ds) <= 1)%nat.
Proof.
  intros ds.
  destruct (exec_step before _ (buildDesignSystem_computed_once theme))
    as [Hinv _]. fold ds in Hinv.
  split; [|split; [|split]].
  - destruct (parseCandidate_step s ds Hinv) as (Hinv1 & _ & array & Hr & Hm).
    exists array. split; [done|].
    destruct (exec_step between _ Hinv1) as [_ (Hkept & _ & _)].
    unfold parseCandidate at 1.
    by rewrite (DefaultMap_get_hit parsedCandidates_map s array _
                  (Hkept _ _ Hm)).
  - destruct (parseVariant_step s ds Hinv) as (Hinv1 & _ & variant & Hr & Hm).
    exists variant. split; [done|].
    destruct (exec_step between _ Hinv1) as [_ (_ & Hkept & _)].
    unfold parseVariant at 1.
    by rewrite (DefaultMap_get_hit parsedVariants_map s variant _
                  (Hkept _ _ Hm)).
  - destruct Hinv as (Ic & _). rewrite Ic. apply held_le_1.
  - destruct Hinv as (_ & Iv & _). rewrite Iv. apply held_le_1.
Qed.

(** C7.  After [compileAstNodes(c)] has been called twice on a design
    system, with any calls before and between, the log holds exactly one
    call of the external compiler and exactly one call of
    [substituteFunctions] for [c]; the second call returns what the first
    returned and leaves the design system as it found it. *)
Theorem compileAstNodes_compiles_once (theme : Ext) (before between : list Op)
    (c : Candidate) :
  let ds := exec before (buildDesignSystem theme) in
  let first := compileAstNodes c ds in
  let ds' := exec between first.2 in
  let second := compileAstNodes c ds' in
  count_calls (is_compileAstNodes_of c) (calls second.2) = 1%nat /\
  count_calls (is_substituteFunctions_of c) (calls second.2) = 1%nat /\
  second.1 = first.1 /\
  second.2 = ds' /\
  exists ast, first.1 = Returned ast.
Proof.
  intros ds first ds' second.
  destruct (exec_step before _ (buildDesignSystem_computed_once theme))
    as [Hinv _]. fold ds in Hinv.
  destruct (compileAstNodes_step c ds Hinv) as (Hinv1 & _ & ast & Hr & Hm).
  fold first in Hinv1, Hr, Hm.
  destruct (exec_step between _ Hinv1) as [Hinv2 (_ & _ & Hkept)].
  fold ds' in Hinv2, Hkept.
  assert (Hhit : second = (Returned ast, ds')).
  { unfold second, compileAstNodes.
    by rewrite (DefaultMap_get_hit compiledAstNodes_map c ast _
                  (Hkept _ _ Hm)). }
  rewrite Hhit. simpl.
  destruct Hinv2 as (_ & _ & In & Is).
  rewrite In, Is. unfold held. rewrite (Hkept _ _ Hm).
  repeat split; eauto.
Qed.

(** C2.  When [compileAstNodes] compiles a candidate and
    [substituteFunctions] throws on the compiled nodes, the call returns
    the empty array, no exception leaves it, the empty array is what the
    cache holds for the candidate, and after any further calls
    [compileAstNodes] still returns the empty array without calling a
    collaborator or changing the design system: the external compiler
    has run once for the candidate, and never runs for it again. *)
Theorem compileAstNodes_substitution_failure (theme : Ext)
    (before after : list Op) (c : Candidate) (err : Error) :
  let ds := exec before (buildDesignSystem theme) in
  Map_get (compiledAstNodes ds) c = None ->
  (substituteFunctions
     (entry_node <$> (compileAstNodes_ext c (ext ds)).1)
     (compileAstNodes_ext c (ext ds)).2).1 = Thrown err ->
  let first := compileAstNodes c ds in
  let ds' := exec after first.2 in
  first.1 = Returned [] /\
  Map_get (compiledAstNodes first.2) c = Some [] /\
  compileAstNodes c ds' = (Returned [], ds') /\
  count_calls (is_compileAstNodes_of c) (calls ds') = 1%nat.
Proof.
  intros ds Hmiss Hthrow first ds'.
  destruct (exec_step before _ (buildDesignSystem_computed_once theme))
    as [Hinv _]. fold ds in Hinv.
  destruct (compileAstNodes_step c ds Hinv) as (Hinv1 & _ & ast & Hr & Hm).
  fold first in Hinv1, Hr, Hm.
  assert (Hast : ast = []).
  { unfold first in Hr. rewrite (compileAstNodes_miss _ _ Hmiss) in Hr.
    simpl in Hr. unfold compiled_result in Hr. fold ds in Hr.
    rewrite Hthrow in Hr. congruence. }
  subst ast.
  destruct (exec_step after _ Hinv1) as [Hinv2 (_ & _ & Hkept)].
  fold ds' in Hinv2, Hkept.
  repeat split; try done.
  - unfold compileAstNodes.
    by rewrite (DefaultMap_get_hit compiledAstNodes_map c [] _
                  (Hkept _ _ Hm)).
  - destruct Hinv2 as (_ & _ & In & _). rewrite In. unfold held.
    by rewrite (Hkept _ _ Hm).
Qed.

End CacheTheorems.

Lemma compileAstNodes_substitution_failure_witness :
  let ds := buildDesignSystem (H := Stub.collaborators) 0%nat in
  let c : Candidate := js "theme(--x)" in
  let after := [OpParseCandidate (js "p-4"); OpCompileAstNodes (js "p-4")] in
  (compileAstNodes c ds).1 = Returned [] /\
  Map_get (compiledAstNodes (compileAstNodes c ds).2) c = Some [] /\
  compileAstNodes c (exec after (compileAstNodes c ds).2)
  = (Returned [], exec after (compileAstNodes c ds).2) /\
  count_calls (is_compileAstNodes_of c)
    (calls (exec after (compileAstNodes c ds).2)) = 1%nat.
Proof.
  intros ds c after.
  apply (compileAstNodes_substitution_failure (H := Stub.collaborators)
           0%nat [] after c tt).
  - reflexivity.
  - reflexivity.
Defined.

(** ** The batch facade *)

Section CandidatesToCssFacts.
Context `{Collaborators}.

Lemma wasInvalid_iter (n : nat) :
  Nat.iter n (λ _ : bool, true) false = negb (n =? 0)%nat.
Proof. by destruct n. Qed.

(** One turn of the loop, spelled out. *)
Lemma candidateToCss_run (className : jsstring) (ds : DesignSystem) :
  let compiled := compileCandidates [className] (ext ds) in
  let optimized := optimizeAst compiled.1.1 compiled.2 in
  candidateToCss className ds =
    (Returned
       (if (length optimized.1 =? 0)%nat || negb (compiled.1.2 =? 0)%nat
        then None
        else Some (toCss optimized.1 optimized.2)),
     set_ext optimized.2 ds).
Proof.
  unfold candidateToCss, mbind, M_bind, call. simpl.
  destruct (compileCandidates [className] (ext ds)) as [[astNodes n] e1].
  simpl. destruct (optimizeAst astNodes e1) as [optimized e2]. simpl.
  rewrite wasInvalid_iter. by destruct (_ || _).
Qed.

Lemma candidatesToCss_loop_app (xs ys : list jsstring)
    (result : list (option jsstring)) (ds : DesignSystem) :
  exists entries,
    length entries = length xs /\
    (candidatesToCss_loop xs result ds).1 = Returned (result ++ entries) /\
    candidatesToCss_loop (xs ++ ys) result ds
    = candidatesToCss_loop ys (result ++ entries)
        (candidatesToCss_loop xs result ds).2.
Proof.
  revert result ds. induction xs as [|x xs IH]; intros result ds; simpl.
  - exists []. by rewrite app_nil_r.
  - unfold mbind, M_bind. rewrite candidateToCss_run. simpl.
    match goal with
    | |- context [candidatesToCss_loop xs (result ++ [?e]) ?d] =>
        set (entry := e); set (ds1 := d)
    end.
    destruct (IH (result ++ [entry]) ds1) as (entries & Hlen & Hres & Happ).
    exists (entry :: entries). simpl. split; [lia|].
    rewrite <- app_assoc in Hres, Happ. simpl in *. done.
Qed.

(** C3.  [candidatesToCss] returns one entry per class name, in order.
    The entry of a class name is [null] exactly when the nodes compiled
    for that class name alone optimize to no node or the invalid-candidate
    callback was called during its compilation, and the serialized CSS
    otherwise; it is the entry a call on that class name alone would give
    in the state the earlier class names left, so no other entry's
    invalid flag reaches it. *)
Theorem candidatesToCss_entries (classes : list jsstring) (ds : DesignSystem) :
  exists result : list (option jsstring),
    (candidatesToCss classes ds).1 = Returned result /\
    length result = length classes /\
    forall (i : nat) (className : jsstring),
      classes !! i = Some className ->
      let ds_i := (candidatesToCss (take i classes) ds).2 in
      let compiled := compileCandidates [className] (ext ds_i) in
      let optimized := optimizeAst compiled.1.1 compiled.2 in
      let entry :=
        if (length optimized.1 =? 0)%nat || negb (compiled.1.2 =? 0)%nat
        then None
        else Some (toCss optimized.1 optimized.2) in
      result !! i = Some entry /\
      (candidatesToCss [className] ds_i).1 = Returned [entry].
Proof.
  destruct (candidatesToCss_loop_app classes [] [] ds)
    as (result & Hlen & Hres & _).
  exists result. split; [done|]. split; [done|].
  intros i className Hi ds_i compiled optimized entry.
  split.
  - pose proof (take_drop_middle _ _ _ Hi) as Hsplit.
    destruct (candidatesToCss_loop_app (take i classes)
                (className :: drop (S i) classes) [] ds)
      as (before & Hlen1 & Hres1 & Happ).
    rewrite Hsplit in Happ. simpl in Happ.
    unfold mbind, M_bind in Happ. rewrite candidateToCss_run in Happ.
    fold (candidatesToCss (take i classes) ds) in Happ. fold ds_i in Happ.
    fold compiled in Happ. fold optimized in Happ. simpl in Happ.
    fold entry in Happ.
    destruct (candidatesToCss_loop_app (drop (S i) classes) []
                (before ++ [entry]) (set_ext optimized.2 ds_i))
      as (rest & _ & Hres2 & _).
    simpl in Hres. unfold candidatesToCss in Hres, Happ.
    rewrite Happ, Hres2 in Hres. injection Hres as <-.
    rewrite <- app_assoc. rewrite lookup_app_r by (rewrite Hlen1, length_take; apply lookup_lt_Some in Hi; lia).
    rewrite Hlen1, length_take.
    apply lookup_lt_Some in Hi.
    by replace (i - i `min` length classes)%nat with 0%nat by lia.
  - unfold candidatesToCss. simpl. unfold mbind, M_bind.
    by rewrite candidateToCss_run.
Qed.

End CandidatesToCssFacts.

Lemma candidatesToCss_entries_witness :
  (candidatesToCss (H := Stub.collaborators)
     [js "p-4"; js "garbage-!!"; js "m-2"] (buildDesignSystem (H := Stub.collaborators) 0%nat)).1
  = Returned [Some (js "p-4"); None; Some (js "m-2")].
Proof.
  destruct (candidatesToCss_entries (H := Stub.collaborators)
              [js "p-4"; js "garbage-!!"; js "m-2"] (buildDesignSystem (H := Stub.collaborators) 0%nat))
    as (result & Hres & Hlen & Hentries).
  destruct (Hentries 0%nat (js "p-4") eq_refl) as [H0 _].
  destruct (Hentries 1%nat (js "garbage-!!") eq_refl) as [H1 _].
  destruct (Hentries 2%nat (js "m-2") eq_refl) as [H2 _].
  rewrite Hres. f_equal.
  destruct result as [|r0 [|r1 [|r2 [|]]]]; try discriminate Hlen.
  simpl in H0, H1, H2.
  injection H0 as ->. injection H1 as ->. injection H2 as ->.
  reflexivity.
Defined.

(** ** The used-variable tracker *)

Section TrackUsedVariablesFacts.
Context `{Collaborators}.

Lemma parse_nested_var :
  ValueParser_parse (js "var(--a, var(--b, red))")
  = [ValueFunctionNode (js "var")
       [ValueWordNode (js "--a");
        ValueSeparatorNode (js ", ");
        ValueFunctionNode (js "var")
          [ValueWordNode (js "--b");
           ValueSeparatorNode (js ", ");
           ValueWordNode (js "red")]]].
Proof. reflexivity. Qed.

(** C8.  A first [trackUsedVariables("var(--a, var(--b, red))")] calls
    [markUsedVariable] once for [--a] and once for [--b], and makes no other
    call: the inner [var()] is reached by the walk over the outer call's
    arguments, and the outer walk skips that subtree.  Tracking the same
    text again marks nothing. *)
Theorem trackUsedVariables_nested_var (ds : DesignSystem) :
  let raw := js "var(--a, var(--b, red))" in
  Map_get (trackUsedVariables_cache ds) raw = None ->
  let tracked := trackUsedVariables raw ds in
  tracked.1 = Returned tt /\
  calls tracked.2
  = calls ds ++ [CallMarkUsedVariable (js "--a");
                 CallMarkUsedVariable (js "--b")] /\
  ext tracked.2
  = theme_markUsedVariable (js "--b")
      (theme_markUsedVariable (js "--a") (ext ds)) /\
  trackUsedVariables raw tracked.2 = (Returned tt, tracked.2).
Proof.
  intros raw Hmiss tracked.
  assert (Hrun : tracked =
    (Returned tt,
     {| ext := theme_markUsedVariable (js "--b")
                 (theme_markUsedVariable (js "--a") (ext ds));
        arrays := arrays ds;
        parsedVariants := parsedVariants ds;
        parsedCandidates := parsedCandidates ds;
        compiledAstNodes := compiledAstNodes ds;
        trackUsedVariables_cache :=
          Map_set (trackUsedVariables_cache ds) raw true;
        calls := calls ds ++ [CallMarkUsedVariable (js "--a");
                              CallMarkUsedVariable (js "--b")] |})).
  { unfold tracked, trackUsedVariables, mbind, M_bind, DefaultMap_get.
    cbn [entries factory set_entries trackUsedVariables_map].
    rewrite Hmiss. unfold raw, mbind, M_bind. rewrite parse_nested_var.
    cbn [walk walk_node visit_var_call visit_var_argument].
    rewrite decide_True by reflexivity.
    unfold mbind, M_bind, markUsedVariable, record, call, mret, M_ret.
    simpl. unfold set_trackUsedVariables_cache, set_ext, set_calls. simpl.
    by rewrite <- app_assoc. }
  rewrite Hrun. simpl. repeat split.
  unfold trackUsedVariables, mbind, M_bind, DefaultMap_get. simpl.
  by rewrite Map_get_set_eq.
Qed.

End TrackUsedVariablesFacts.

Lemma trackUsedVariables_nested_var_witness :
  let tracked :=
    trackUsedVariables (H := Stub.collaborators)
      (js "var(--a, var(--b, red))") (buildDesignSystem (H := Stub.collaborators) 0%nat) in
  calls tracked.2
  = [CallMarkUsedVariable (js "--a"); CallMarkUsedVariable (js "--b")].
Proof.
  intros tracked.
  apply (trackUsedVariables_nested_var (H := Stub.collaborators)
           (buildDesignSystem (H := Stub.collaborators) 0%nat)).
  reflexivity.
Defined.

(** ** The variant order *)

Section SortFacts.
Context `{Collaborators}.

Lemma sort_insert_Permutation (a : option Variant)
    (sorted : list (option Variant)) :
  sort_insert a sorted ≡ₚ a :: sorted.
Proof.
  induction sorted as [|z rest IH]; simpl; [done|].
  destruct (decide (compare_le a z)); [done|].
  rewrite IH. apply Permutation_swap.
Qed.

Lemma Array_sort_Permutation (variants : list (option Variant)) :
  Array_sort variants ≡ₚ variants.
Proof.
  induction variants as [|a variants IH]; simpl; [done|].
  by rewrite sort_insert_Permutation, IH.
Qed.

Section Consistent.
Hypothesis Hcmp : consistent_comparator variants_compare.

Lemma compare_flip (a z : option Variant) :
  (variants_compare a z < 0 -> 0 < variants_compare z a) /\
  (variants_compare a z = 0 -> variants_compare z a = 0) /\
  (0 < variants_compare a z -> variants_compare z a < 0).
Proof.
  destruct Hcmp as [Hsym _]. specialize (Hsym a z).
  destruct (variants_compare a z), (variants_compare z a);
    simpl in Hsym; repeat split; intros; lia.
Qed.

Lemma compare_refl (a : option Variant) : variants_compare a a = 0.
Proof.
  destruct (compare_flip a a) as (Hlt & _ & Hgt).
  destruct (Z.lt_trichotomy (variants_compare a a) 0) as [?|[?|?]];
    [|done|]; pose proof (Hlt) ; pose proof Hgt; lia.
Qed.

Lemma compare_le_trans (a b c : option Variant) :
  compare_le a b -> compare_le b c -> compare_le a c.
Proof. destruct Hcmp as [_ Htrans]. apply Htrans. Qed.

Lemma compare_le_total (a z : option Variant) :
  ~ compare_le a z -> compare_le z a.
Proof.
  unfold compare_le. intros Hn.
  destruct (compare_flip a z) as (_ & _ & Hgt). lia.
Qed.

(** Not after, then strictly before: strictly before. *)
Lemma compare_le_lt_trans (a b c : option Variant) :
  compare_le a b -> variants_compare b c < 0 -> variants_compare a c < 0.
Proof.
  unfold compare_le. intros Hab Hbc.
  destruct (Z.lt_ge_cases (variants_compare a c) 0) as [|Hac]; [done|].
  assert (Hca : compare_le c a).
  { unfold compare_le. destruct (compare_flip a c) as (_ & ? & ?). lia. }
  pose proof (compare_le_trans _ _ _ Hca Hab) as Hcb. unfold compare_le in Hcb.
  destruct (compare_flip b c) as (? & _ & _). lia.
Qed.

(** Equivalent elements compare alike. *)
Lemma compare_equiv (a b c : option Variant) :
  variants_compare b c = 0 ->
  variants_compare a b = 0 <-> variants_compare a c = 0.
Proof.
  intros Hbc.
  assert (Hcb : variants_compare c b = 0) by by apply compare_flip.
  assert (Heq : forall x y, variants_compare x y = 0 <->
                            compare_le x y /\ compare_le y x).
  { intros x y. unfold compare_le.
    destruct (compare_flip x y) as (? & ? & ?).
    destruct (compare_flip y x) as (? & ? & ?). lia. }
  rewrite !Heq. apply Heq in Hbc as [? ?].
  split; intros [? ?]; split; eauto using compare_le_trans.
Qed.

Lemma sort_insert_sorted (a : option Variant)
    (sorted : list (option Variant)) :
  StronglySorted compare_le sorted ->
  StronglySorted compare_le (sort_insert a sorted).
Proof.
  induction 1 as [|z rest Hrest IH Hz]; simpl.
  - repeat constructor.
  - destruct (decide (compare_le a z)) as [Haz|Hza].
    + constructor; [by constructor|]. constructor; [done|].
      eapply Forall_impl; [exact Hz|]. intros c Hzc.
      by apply compare_le_trans with z.
    + constructor; [done|].
      rewrite sort_insert_Permutation. constructor; [|done].
      by apply compare_le_total.
Qed.

Lemma Array_sort_sorted (variants : list (option Variant)) :
  StronglySorted compare_le (Array_sort variants).
Proof.
  induction variants as [|a variants IH]; simpl.
  - constructor.
  - by apply sort_insert_sorted.
Qed.

End Consistent.
End SortFacts.

Section OrderLoopFacts.
Context `{Collaborators}.
Implicit Types (st : OrderLoop) (l : list (option Variant)).

Lemma order_step_other st (variant x : option Variant) :
  x <> variant ->
  Map_get (order (order_step st variant)) x = Map_get (order st) x.
Proof.
  intros Hne. destruct variant as [v|]; simpl; [|done].
  by rewrite Map_get_set_ne.
Qed.

Lemma order_step_null st (variant : option Variant) :
  Map_get (order (order_step st variant)) None = Map_get (order st) None.
Proof.
  destruct variant as [v|]; simpl; [|done]. by rewrite Map_get_set_ne.
Qed.

Lemma order_step_self st (v : Variant) :
  Map_get (order (order_step st (Some v))) (Some v)
  = Some (index (order_step st (Some v))).
Proof. simpl. apply Map_get_set_eq. Qed.

(** A key the rest of the array does not hold keeps its index. *)
Lemma order_loop_untouched l st (x : option Variant) :
  x ∉ l ->
  Map_get (order (fold_left order_step l st)) x = Map_get (order st) x.
Proof.
  revert st. induction l as [|variant l IH]; intros st Hx; simpl; [done|].
  apply not_elem_of_cons in Hx as [Hne Hx].
  rewrite IH by done. by apply order_step_other.
Qed.

Lemma order_loop_null l st :
  Map_get (order (fold_left order_step l st)) None = Map_get (order st) None.
Proof.
  revert st. induction l as [|variant l IH]; intros st; simpl; [done|].
  rewrite IH. apply order_step_null.
Qed.

Lemma order_loop_keys l st (x : option Variant) :
  is_Some (Map_get (order (fold_left order_step l st)) x) <->
  is_Some (Map_get (order st) x) \/ (x ∈ l /\ x <> None).
Proof.
  revert st. induction l as [|variant l IH]; intros st; simpl.
  - split; [by left|]. intros [?|[Hin _]]; [done|]. by apply elem_of_nil in Hin.
  - rewrite IH. rewrite elem_of_cons.
    destruct (decide (x = variant)) as [->|Hne].
    + destruct variant as [v|].
      * rewrite order_step_self. split; [|eauto].
        intros _. right. split; [by left|done].
      * simpl. intuition congruence.
    + rewrite (order_step_other _ _ _ Hne). intuition congruence.
Qed.

Lemma non_null_elem_of l (v : Variant) : v ∈ non_null l <-> Some v ∈ l.
Proof.
  unfold non_null. rewrite list_elem_of_omap. split.
  - intros (x & Hx & Hid). simpl in Hid. by subst x.
  - intros Hv. by exists (Some v).
Qed.

(** The indices the loop hands out, one for each variant of the array in
    order. *)
Lemma order_loop_groups l st :
  exists groups : list nat,
    length groups = length (non_null l) /\
    (forall v, non_null l !! 0%nat = Some v ->
       groups !! 0%nat = Some (index (order_step st (Some v)))) /\
    (forall i p v g,
       non_null l !! i = Some p -> non_null l !! S i = Some v ->
       groups !! i = Some g ->
       groups !! S i
       = Some (if variants_compare (Some p) (Some v) =? 0 then g else S g)) /\
    (forall i v g,
       non_null l !! i = Some v -> groups !! i = Some g ->
       v ∉ drop (S i) (non_null l) ->
       Map_get (order (fold_left order_step l st)) (Some v) = Some g).
Proof.
  revert st. induction l as [|[v0|] l IH]; intros st.
  - exists []. repeat split; intros; simplify_eq/=.
  - destruct (IH (order_step st (Some v0)))
      as (groups & Hlen & Hfirst & Hnext & Hget).
    exists (index (order_step st (Some v0)) :: groups).
    change (non_null (Some v0 :: l)) with (v0 :: non_null l).
    split; [simpl; lia|]. split; [|split].
    + intros v [= ->]. done.
    + intros [|i] p v g Hp Hv Hg; simpl in *.
      * injection Hp as ->. injection Hg as <-.
        rewrite (Hfirst _ Hv). simpl.
        by destruct (variants_compare (Some p) (Some v) =? 0).
      * eauto.
    + intros [|i] v g Hv Hg Hlast; simpl in *.
      * injection Hv as ->. injection Hg as <-.
        rewrite drop_0 in Hlast.
        rewrite order_loop_untouched
          by (by rewrite <- non_null_elem_of).
        apply Map_get_set_eq.
      * eauto.
  - apply IH.
Qed.

End OrderLoopFacts.

Section OrderLoopSorted.
Context `{Collaborators}.
Hypothesis Hcmp : consistent_comparator variants_compare.
Implicit Types (st : OrderLoop) (l : list (option Variant)).

(** After a step on [Some w], every key sits at or below the new index,
    and at it exactly when it is equivalent to [w]. *)
Lemma order_step_bound st (w : Variant) (x : option Variant) (k : nat) :
  order_ok st ->
  (forall y j, Map_get (order st) y = Some j -> compare_le y (Some w)) ->
  Map_get (order (order_step st (Some w))) x = Some k ->
  compare_le x (Some w) /\
  (k <= index (order_step st (Some w)))%nat /\
  (k = index (order_step st (Some w)) <-> variants_compare x (Some w) = 0).
Proof.
  intros (Hprev & Hbound & _) Hle Hx.
  destruct (decide (x = Some w)) as [->|Hne].
  - rewrite order_step_self in Hx. injection Hx as <-.
    pose proof (compare_refl Hcmp (Some w)) as Hrefl.
    unfold compare_le. rewrite Hrefl. simpl.
    split; [lia|]. split; [lia|]. split; done.
  - rewrite order_step_other in Hx by done.
    destruct (Hbound _ _ Hx) as (p & Hp & Hxp & Hk & Hkeq).
    split; [by eapply Hle|]. simpl. rewrite Hp.
    pose proof (Hle _ _ (Hprev _ Hp)) as Hpw. unfold compare_le in Hpw.
    destruct (Z.eqb_spec (variants_compare (Some p) (Some w)) 0) as [Heq|Hneq];
      simpl.
    + split; [done|]. rewrite Hkeq. by apply compare_equiv.
    + assert (Hlt : variants_compare x (Some w) < 0)
        by (apply (compare_le_lt_trans Hcmp _ (Some p)); [done|lia]).
      split; [lia|]. split; lia.
Qed.

Lemma order_step_ok st (variant : option Variant) :
  order_ok st ->
  (forall y j, Map_get (order st) y = Some j -> compare_le y variant) ->
  order_ok (order_step st variant).
Proof.
  intros Hok Hle. destruct variant as [w|]; [|done].
  pose proof (λ x k, order_step_bound st w x k Hok Hle) as Hbound.
  split; [|split].
  - intros p [= <-]. apply order_step_self.
  - intros x k Hx. exists w. split; [done|]. by apply Hbound.
  - intros x y kx ky Hx Hy.
    destruct (Hbound _ _ Hx) as (Hxw & Hkx & Hkxeq).
    destruct (Hbound _ _ Hy) as (Hyw & Hky & Hkyeq).
    unfold compare_le in Hxw, Hyw.
    destruct (decide (y = Some w)) as [->|Hney].
    + assert (ky = index (order_step st (Some w))) as ->
        by (rewrite order_step_self in Hy; congruence).
      lia.
    + destruct (decide (x = Some w)) as [->|Hnex].
      * assert (kx = index (order_step st (Some w))) as ->
          by (rewrite order_step_self in Hx; congruence).
        destruct (compare_flip Hcmp (Some w) y) as (? & _ & _). lia.
      * rewrite order_step_other in Hx, Hy by done.
        destruct Hok as (_ & _ & Hord). by apply Hord.
Qed.

Lemma order_loop_ok l st :
  StronglySorted compare_le l ->
  order_ok st ->
  (forall y j, Map_get (order st) y = Some j -> Forall (compare_le y) l) ->
  order_ok (fold_left order_step l st).
Proof.
  intros Hsorted. revert st.
  induction Hsorted as [|variant l Hl IH Hvariant]; intros st Hok Hle; simpl;
    [done|].
  apply IH.
  - apply order_step_ok; [done|].
    intros y j Hy. by eapply Forall_cons_1, Hle.
  - intros y j Hy. destruct (decide (y = variant)) as [->|Hne]; [done|].
    rewrite order_step_other in Hy by done.
    by eapply Forall_cons_1, Hle.
Qed.

(** Under a consistent comparator the index is an order embedding: two
    keys of the map compare as their indices do. *)
Lemma getVariantOrder_embedding (ds : DesignSystem)
    (x y : option Variant) (kx ky : nat) :
  Map_get (getVariantOrder ds) x = Some kx ->
  Map_get (getVariantOrder ds) y = Some ky ->
  ((kx < ky)%nat <-> variants_compare x y < 0) /\
  (kx = ky <-> variants_compare x y = 0).
Proof.
  intros Hx Hy.
  assert (Hok : order_ok
    (fold_left order_step (Array_sort (Map_values (parsedVariants ds)))
       {| order := []; prevVariant := None; index := 0 |})).
  { apply order_loop_ok.
    - by apply Array_sort_sorted.
    - repeat split; intros; simplify_eq/=.
    - intros; simplify_eq/=. }
  destruct Hok as (_ & _ & Hord).
  pose proof (Hord _ _ _ _ Hx Hy) as Hxy.
  pose proof (Hord _ _ _ _ Hy Hx) as Hyx.
  destruct (compare_flip Hcmp x y) as (? & ? & ?).
  destruct (compare_flip Hcmp y x) as (? & ? & ?).
  split; [done|]. lia.
Qed.

End OrderLoopSorted.

Section VariantOrderTheorems.
Context `{Collaborators}.

Lemma getVariantOrder_keys (ds : DesignSystem) (x : option Variant) :
  is_Some (Map_get (getVariantOrder ds) x) <->
  x ∈ Map_values (parsedVariants ds) /\ x <> None.
Proof.
  unfold getVariantOrder. rewrite order_loop_keys. simpl.
  rewrite Array_sort_Permutation. split.
  - intros [[? [=]]|?]; done.
  - by right.
Qed.

(** C4.  [getVariantOrder] sorts the values of the variant parse cache, all
    of them, with the registry comparator (the sorted array is a
    permutation of the cache's values, and ordered by the comparator when
    it is consistent), then hands out indices in one pass over the
    variants of the sorted array: the first gets [0], and each next one
    gets its predecessor's index when the comparator gives [0] for the
    two, and one more otherwise.  The map holds for a variant the index of
    its last place in the array, its keys are the variants of the cache,
    and [null] is not a key. *)
Theorem getVariantOrder_groups (ds : DesignSystem) :
  let sorted := Array_sort (Map_values (parsedVariants ds)) in
  let variants := non_null sorted in
  let order := getVariantOrder ds in
  sorted ≡ₚ Map_values (parsedVariants ds) /\
  (consistent_comparator variants_compare ->
   StronglySorted compare_le sorted) /\
  Map_get order None = None /\
  (forall v : Variant,
     is_Some (Map_get order (Some v)) <->
     Some v ∈ Map_values (parsedVariants ds)) /\
  exists groups : list nat,
    length groups = length variants /\
    (forall g, groups !! 0%nat = Some g -> g = 0%nat) /\
    (forall i p v g,
       variants !! i = Some p -> variants !! S i = Some v ->
       groups !! i = Some g ->
       groups !! S i
       = Some (if variants_compare (Some p) (Some v) =? 0 then g else S g)) /\
    (forall i v g,
       variants !! i = Some v -> groups !! i = Some g ->
       v ∉ drop (S i) variants ->
       Map_get order (Some v) = Some g).
Proof.
  intros sorted variants order.
  split; [apply Array_sort_Permutation|].
  split; [intros Hcmp; by apply Array_sort_sorted|].
  split; [apply order_loop_null|].
  split.
  { intros v. unfold order. rewrite getVariantOrder_keys. intuition congruence. }
  destruct (order_loop_groups sorted
              {| order := []; prevVariant := None; index := 0 |})
    as (groups & Hlen & Hfirst & Hnext & Hget).
  exists groups. split; [done|]. split; [|by split].
  clear Hnext Hget. subst variants order. intros g Hg.
  destruct (non_null sorted) as [|v rest] eqn:Hvs.
  - destruct groups; [done|discriminate Hlen].
  - rewrite (Hfirst v eq_refl) in Hg. simpl in Hg. congruence.
Qed.

(** C5, as amended.  For three variants [a], [b], [c] of the variant parse
    cache and a consistent comparator with [compare(a, b) = 0] and
    [compare(b, c) > 0], the map gives [a] and [b] the same index and [c]
    a strictly smaller one: [c] sorts before [b]. *)
Theorem getVariantOrder_grouping (ds : DesignSystem) (a b c : Variant) :
  consistent_comparator variants_compare ->
  Some a ∈ Map_values (parsedVariants ds) ->
  Some b ∈ Map_values (parsedVariants ds) ->
  Some c ∈ Map_values (parsedVariants ds) ->
  variants_compare (Some a) (Some b) = 0 ->
  0 < variants_compare (Some b) (Some c) ->
  exists ia ic : nat,
    Map_get (getVariantOrder ds) (Some a) = Some ia /\
    Map_get (getVariantOrder ds) (Some b) = Some ia /\
    Map_get (getVariantOrder ds) (Some c) = Some ic /\
    (ic < ia)%nat.
Proof.
  intros Hcmp Ha Hb Hc Hab Hbc.
  assert (Hkey : forall v, Some v ∈ Map_values (parsedVariants ds) ->
                           is_Some (Map_get (getVariantOrder ds) (Some v))).
  { intros v Hv. by apply getVariantOrder_keys. }
  destruct (Hkey _ Ha) as [ia Hia]. destruct (Hkey _ Hb) as [ib Hib].
  destruct (Hkey _ Hc) as [ic Hic].
  destruct (getVariantOrder_embedding Hcmp ds _ _ _ _ Hia Hib) as [_ Heq].
  destruct (getVariantOrder_embedding Hcmp ds _ _ _ _ Hic Hib) as [Hlt _].
  destruct (compare_flip Hcmp (Some b) (Some c)) as (_ & _ & Hflip).
  apply Heq in Hab as ->.
  exists ib, ic. repeat split; try done. apply Hlt. by apply Hflip.
Qed.

End VariantOrderTheorems.

Lemma stub_compare_consistent :
  consistent_comparator (H := Stub.collaborators) Stub.compare.
Proof.
  split.
  - intros [x|] [y|]; simpl; lia.
  - intros [x|] [y|] [z|]; simpl; lia.
Qed.

(** The variant cache after parsing [b], [c], [a] and the empty string on
    the stub: [b] and [c] rank alike, [a] ranks below them. *)
Lemma getVariantOrder_groups_witness :
  let ds :=
    exec [OpParseVariant (js "b"); OpParseVariant (js "c");
          OpParseVariant (js "a"); OpParseVariant (js "")]
      (buildDesignSystem (H := Stub.collaborators) 0%nat) in
  StronglySorted compare_le (Array_sort (Map_values (parsedVariants ds))) /\
  Map_get (getVariantOrder ds) None = None.
Proof.
  intros ds.
  destruct (getVariantOrder_groups (H := Stub.collaborators) ds)
    as (_ & Hsorted & Hnull & _).
  split; [|exact Hnull].
  apply Hsorted. exact stub_compare_consistent.
Defined.

Lemma getVariantOrder_grouping_witness :
  let ds :=
    exec [OpParseVariant (js "b"); OpParseVariant (js "c");
          OpParseVariant (js "a")]
      (buildDesignSystem (H := Stub.collaborators) 0%nat) in
  exists ia ic : nat,
    Map_get (getVariantOrder ds) (Some 98%N) = Some ia /\
    Map_get (getVariantOrder ds) (Some 99%N) = Some ia /\
    Map_get (getVariantOrder ds) (Some 97%N) = Some ic /\
    (ic < ia)%nat.
Proof.
  intros ds.
  apply (getVariantOrder_grouping (H := Stub.collaborators) ds
           98%N 99%N 97%N).
  - exact stub_compare_consistent.
  - compute_done.
  - compute_done.
  - compute_done.
  - reflexivity.
  - reflexivity.
Defined.

(** C5 as the specification words it fails on the stub: with
    [compare(b, c) > 0] the variant [c] gets the smaller index, not the
    greater one. *)
Lemma getVariantOrder_grouping_counterexample :
  let ds :=
    exec [OpParseVariant (js "b"); OpParseVariant (js "c");
          OpParseVariant (js "a")]
      (buildDesignSystem (H := Stub.collaborators) 0%nat) in
  ~ (forall a b c : Variant,
       Some a ∈ Map_values (parsedVariants ds) ->
       Some b ∈ Map_values (parsedVariants ds) ->
       Some c ∈ Map_values (parsedVariants ds) ->
       variants_compare (Some a) (Some b) = 0 ->
       0 < variants_compare (Some b) (Some c) ->
       exists ia ic : nat,
         Map_get (getVariantOrder ds) (Some a) = Some ia /\
         Map_get (getVariantOrder ds) (Some b) = Some ia /\
         Map_get (getVariantOrder ds) (Some c) = Some ic /\
         (ia < ic)%nat).
Proof.
  intros ds Hclaim.
  destruct (Hclaim 98%N 99%N 97%N) as (ia & ic & Ha & _ & Hc & Hlt).
  - compute_done.
  - compute_done.
  - compute_done.
  - reflexivity.
  - reflexivity.
  - vm_compute in Ha, Hc. injection Ha as <-. injection Hc as <-. lia.
Qed.

(** * Further properties *)

(** ** Trimming *)

Section TrimFacts.
Implicit Types (s t ws : jsstring).

Lemma blank_app ws1 ws2 :
  forallb is_whitespace (ws1 ++ ws2) = true <->
  forallb is_whitespace ws1 = true /\ forallb is_whitespace ws2 = true.
Proof. rewrite forallb_app. apply andb_true_iff. Qed.

Lemma blank_rev ws :
  forallb is_whitespace ws = true -> forallb is_whitespace (rev ws) = true.
Proof.
  rewrite !forallb_forall. intros Hws c Hc. apply Hws. by apply in_rev.
Qed.

Lemma blank_no_slash ws :
  forallb is_whitespace ws = true -> SLASH ∉ ws.
Proof.
  rewrite forallb_forall. intros Hws Hin.
  apply list_elem_of_In, Hws in Hin. discriminate.
Qed.

Lemma trimStart_blank_app ws s :
  forallb is_whitespace ws = true -> trimStart (ws ++ s) = trimStart s.
Proof.
  induction ws as [|c ws IH]; simpl; [done|].
  destruct (is_whitespace c); simpl; [done|discriminate].
Qed.

Lemma trimStart_blank_inv s :
  trimStart s = [] -> forallb is_whitespace s = true.
Proof.
  induction s as [|c s IH]; simpl; [done|].
  destruct (is_whitespace c); simpl; [done|discriminate].
Qed.

Lemma trimStart_app s t :
  trimStart s <> [] -> trimStart (s ++ t) = trimStart s ++ t.
Proof.
  induction s as [|c s IH]; simpl; [done|].
  destruct (is_whitespace c); [done|]. done.
Qed.

(** What [trimStart] removes is whitespace, and what it leaves does not
    start with whitespace. *)
Lemma trimStart_split s :
  exists ws, forallb is_whitespace ws = true /\ s = ws ++ trimStart s /\
             match trimStart s with
             | [] => True
             | c :: _ => is_whitespace c = false
             end.
Proof.
  induction s as [|c s (ws & Hws & Hs & Hhead)]; simpl.
  - by exists [].
  - destruct (is_whitespace c) eqn:Hc.
    + exists (c :: ws). simpl. rewrite Hc, Hws. split; [done|].
      split; [by f_equal|done].
    + by exists [].
Qed.

Lemma trimStart_fixed c s :
  is_whitespace c = false -> trimStart (c :: s) = c :: s.
Proof. intros Hc. simpl. by rewrite Hc. Qed.

Lemma trimEnd_blank_app s ws :
  forallb is_whitespace ws = true -> trimEnd (s ++ ws) = trimEnd s.
Proof.
  intros Hws. unfold trimEnd. rewrite rev_app_distr.
  by rewrite trimStart_blank_app by by apply blank_rev.
Qed.

Lemma trimEnd_split s :
  exists ws, forallb is_whitespace ws = true /\ s = trimEnd s ++ ws.
Proof.
  destruct (trimStart_split (rev s)) as (ws & Hws & Hs & _).
  exists (rev ws). split; [by apply blank_rev|].
  unfold trimEnd. rewrite <- rev_app_distr, <- Hs. by rewrite rev_involutive.
Qed.

(** Trimming the end keeps a first unit that is not whitespace. *)
Lemma trimEnd_head c s :
  is_whitespace c = false -> exists t, trimEnd (c :: s) = c :: t.
Proof.
  intros Hc. destruct (trimEnd_split (c :: s)) as (ws & Hws & Hs).
  destruct (trimEnd (c :: s)) as [|c' t].
  - simpl in Hs. subst ws. simpl in Hws. by rewrite Hc in Hws.
  - exists t. simpl in Hs. by injection Hs as <- _.
Qed.

Lemma trim_blank_app ws1 s ws2 :
  forallb is_whitespace ws1 = true -> forallb is_whitespace ws2 = true ->
  trim (ws1 ++ s ++ ws2) = trim s.
Proof.
  intros Hws1 Hws2. unfold trim. rewrite trimStart_blank_app by done.
  destruct (trimStart s) as [|c t] eqn:Hs.
  - rewrite trimStart_whitespace; [done|].
    apply blank_app. split; [by apply trimStart_blank_inv|done].
  - rewrite trimStart_app by (by rewrite Hs). rewrite Hs.
    by apply trimEnd_blank_app.
Qed.

(** [trim] cuts whitespace off both ends and nothing else. *)
Lemma trim_split s :
  exists ws1 ws2,
    forallb is_whitespace ws1 = true /\ forallb is_whitespace ws2 = true /\
    s = ws1 ++ trim s ++ ws2.
Proof.
  destruct (trimStart_split s) as (ws1 & Hws1 & Hs & _).
  destruct (trimEnd_split (trimStart s)) as (ws2 & Hws2 & Ht).
  exists ws1, ws2. split; [done|]. split; [done|].
  unfold trim. by rewrite <- Ht.
Qed.

Lemma trimStart_idempotent s : trimStart (trimStart s) = trimStart s.
Proof.
  destruct (trimStart_split s) as (_ & _ & _ & Hhead).
  destruct (trimStart s) as [|c t]; [done|]. by apply trimStart_fixed.
Qed.

Lemma trimEnd_idempotent s : trimEnd (trimEnd s) = trimEnd s.
Proof.
  unfold trimEnd. by rewrite rev_involutive, trimStart_idempotent.
Qed.

Lemma trim_idempotent s : trim (trim s) = trim s.
Proof.
  unfold trim.
  destruct (trimStart_split s) as (_ & _ & _ & Hhead).
  destruct (trimStart s) as [|c t]; [done|].
  destruct (trimEnd_head c t Hhead) as (u & Hu).
  rewrite Hu, (trimStart_fixed _ _ Hhead), <- Hu.
  apply trimEnd_idempotent.
Qed.

Lemma trim_no_slash s : SLASH ∉ s -> SLASH ∉ trim s.
Proof.
  intros Hs Hin. destruct (trim_split s) as (ws1 & ws2 & _ & _ & Heq).
  apply Hs. rewrite Heq. rewrite !elem_of_app. auto.
Qed.

End TrimFacts.

(** ** More on the theme-value resolver *)

Section ResolveThemeValueMore.
Context `{Collaborators}.

Lemma last_slash_cases (path : jsstring) :
  SLASH ∉ path \/
  exists before after, path = before ++ SLASH :: after /\ SLASH ∉ after.
Proof.
  induction path as [|c path [Hno|(before & after & -> & Hafter)]].
  - left. apply not_elem_of_nil.
  - destruct (decide (c = SLASH)) as [->|Hne].
    + right. by exists [], path.
    + left. by apply not_elem_of_cons.
  - right. by exists (c :: before), after.
Qed.

(** Whitespace around the lookup path and around the modifier of a path
    with a [/] does not matter. *)
Theorem resolveThemeValue_ignores_padding
    (ws1 ws2 ws3 ws4 before after : jsstring) (ext : Ext) :
  forallb is_whitespace ws1 = true -> forallb is_whitespace ws2 = true ->
  forallb is_whitespace ws3 = true -> forallb is_whitespace ws4 = true ->
  SLASH ∉ after ->
  resolveThemeValue (ws1 ++ before ++ ws2 ++ SLASH :: ws3 ++ after ++ ws4) ext
  = resolveThemeValue (before ++ SLASH :: after) ext.
Proof.
  intros Hws1 Hws2 Hws3 Hws4 Hafter.
  assert (Hpadded : SLASH ∉ ws3 ++ after ++ ws4).
  { rewrite !elem_of_app. intros [Hin|[Hin|Hin]];
      [by apply (blank_no_slash _ Hws3)|done
      |by apply (blank_no_slash _ Hws4)]. }
  replace (ws1 ++ before ++ ws2 ++ SLASH :: ws3 ++ after ++ ws4)
    with ((ws1 ++ before ++ ws2) ++ SLASH :: ws3 ++ after ++ ws4)
    by (by rewrite <- !app_assoc).
  rewrite (resolveThemeValue_unfold _ _ _ _
             (split_modifier_slash _ _ Hpadded)).
  rewrite (resolveThemeValue_unfold _ _ _ _
             (split_modifier_slash _ _ Hafter)).
  by rewrite !trim_blank_app.
Qed.

(** Whenever [resolveThemeValue] applies an alpha, the value it hands to
    [withAlpha] is the theme's non-empty value for the lookup path, and the
    modifier it hands over is non-empty, holds no [/] and has no
    whitespace at either end; in every other case the result is the
    theme's answer for the lookup path. *)
Theorem resolveThemeValue_alpha_arguments (path : jsstring) (ext : Ext) :
  let lookup := (split_modifier path).2 in
  resolveThemeValue path ext = nullish (theme_get [lookup] ext) JsUndefined \/
  exists value alpha : jsstring,
    theme_get [lookup] ext = JsString value /\
    resolveThemeValue path ext = JsString (withAlpha value alpha) /\
    value <> [] /\ alpha <> [] /\ (SLASH ∉ alpha) /\
    trim alpha = alpha /\ trim lookup = lookup.
Proof.
  intros lookup. unfold lookup.
  destruct (last_slash_cases path) as [Hno|(before & after & -> & Hafter)].
  - rewrite (resolveThemeValue_unfold _ _ _ _ (split_modifier_no_slash _ Hno)).
    rewrite (split_modifier_no_slash _ Hno). simpl.
    left. by destruct (theme_get [path] ext) as [| |[|c value]].
  - rewrite (resolveThemeValue_unfold _ _ _ _
               (split_modifier_slash _ _ Hafter)).
    rewrite (split_modifier_slash _ _ Hafter). simpl.
    destruct (theme_get [trim before] ext) as [| |[|c value]] eqn:Hget;
      try by left.
    destruct (trim after) as [|a alpha] eqn:Halpha; [by left|].
    right. exists (c :: value), (a :: alpha).
    repeat split; try done.
    + rewrite <- Halpha. by apply trim_no_slash.
    + rewrite <- Halpha. apply trim_idempotent.
    + apply trim_idempotent.
Qed.

End ResolveThemeValueMore.

Lemma resolveThemeValue_ignores_padding_witness :
  resolveThemeValue (H := Stub.collaborators)
    (js " " ++ js "--color-red-500" ++ js "  " ++ SLASH :: js " "
       ++ js "50%" ++ js " ") 0%nat
  = resolveThemeValue (H := Stub.collaborators)
      (js "--color-red-500" ++ SLASH :: js "50%") 0%nat.
Proof.
  apply (resolveThemeValue_ignores_padding (H := Stub.collaborators)
           (js " ") (js "  ") (js " ") (js " ")
           (js "--color-red-500") (js "50%") 0%nat);
    try reflexivity.
  compute_done.
Defined.

(** ** More on the used-variable tracker *)

Section TrackerMore.
Context `{Collaborators}.

Lemma mark_all_nil (ds : DesignSystem) : mark_all [] ds = ds.
Proof. destruct ds. unfold mark_all, set_ext, set_calls. simpl.
  by rewrite app_nil_r. Qed.

Lemma mark_all_app (names1 names2 : list jsstring) (ds : DesignSystem) :
  mark_all (names1 ++ names2) ds = mark_all names2 (mark_all names1 ds).
Proof.
  destruct ds. unfold mark_all, set_ext, set_calls. simpl.
  by rewrite fold_left_app, fmap_app, app_assoc.
Qed.

Lemma markUsedVariable_run (name : jsstring) (ds : DesignSystem) :
  markUsedVariable name ds = (Returned tt, mark_all [name] ds).
Proof. reflexivity. Qed.

(** The loop over the children inside [walk_node] is [walk]. *)
Lemma walk_children_walk
    (visit : ValueAstNode -> M (option ValueWalkAction))
    (nodes : list ValueAstNode) (ds : DesignSystem) :
  (fix walk_children (children : list ValueAstNode) : M bool :=
     match children with
     | [] => mret false
     | child :: rest =>
         stopped ← walk_node visit child;
         if stopped : bool then mret true else walk_children rest
     end) nodes ds
  = walk visit nodes ds.
Proof.
  revert ds. induction nodes as [|node nodes IH]; intros ds; simpl; [done|].
  unfold mbind, M_bind.
  destruct (walk_node visit node ds) as [[[|]|e] ds']; auto.
Qed.

Lemma walk_marks
    (visit : ValueAstNode -> M (option ValueWalkAction))
    (marks : ValueAstNode -> list jsstring) (nodes : list ValueAstNode) :
  Forall (λ node, forall ds,
            walk_node visit node ds = (Returned false, mark_all (marks node) ds))
         nodes ->
  forall ds,
    walk visit nodes ds = (Returned false, mark_all (flat_map marks nodes) ds).
Proof.
  induction 1 as [|node nodes Hnode _ IH]; intros ds; simpl.
  - by rewrite mark_all_nil.
  - unfold mbind, M_bind. rewrite Hnode, IH. by rewrite mark_all_app.
Qed.

Lemma walk_node_function
    (visit : ValueAstNode -> M (option ValueWalkAction))
    (value : jsstring) (nodes : list ValueAstNode) (ds : DesignSystem) :
  walk_node visit (ValueFunctionNode value nodes) ds =
    match visit (ValueFunctionNode value nodes) ds with
    | (Returned status, ds') =>
        match default Continue status with
        | Continue => walk visit nodes ds'
        | Skip => (Returned false, ds')
        | Stop => (Returned true, ds')
        end
    | (Thrown e, ds') => (Thrown e, ds')
    end.
Proof.
  cbn [walk_node]. unfold mbind at 1, M_bind at 1.
  destruct (visit (ValueFunctionNode value nodes) ds)
    as [[[[| |]|]|e] ds']; try reflexivity; apply walk_children_walk.
Qed.

Lemma walk_node_var_argument (node : ValueAstNode) (ds : DesignSystem) :
  walk_node visit_var_argument node ds
  = (Returned false, mark_all (dash_words node) ds).
Proof.
  revert ds.
  induction node as [value|value nodes IH|value] using ValueAstNode_nested_ind;
    intros ds.
  - simpl. destruct (starts_with_two_dashes value); simpl.
    + reflexivity.
    + by rewrite mark_all_nil.
  - rewrite walk_node_function. simpl. by apply walk_marks.
  - simpl. by rewrite mark_all_nil.
Qed.

Lemma walk_node_var_call (node : ValueAstNode) (ds : DesignSystem) :
  walk_node visit_var_call node ds
  = (Returned false, mark_all (var_marks node) ds).
Proof.
  revert ds.
  induction node as [value|value nodes IH|value] using ValueAstNode_nested_ind;
    intros ds.
  - simpl. by rewrite mark_all_nil.
  - rewrite walk_node_function. simpl.
    destruct (decide (value = js "var")) as [Hvar|Hvar].
    + unfold mbind, M_bind.
      rewrite (walk_marks visit_var_argument dash_words); [done|].
      apply Forall_forall. intros node _. apply walk_node_var_argument.
    + simpl. by apply walk_marks.
  - simpl. by rewrite mark_all_nil.
Qed.



(** What a first [trackUsedVariables] does. *)
Lemma trackUsedVariables_miss (raw : jsstring) (ds : DesignSystem) :
  Map_get (trackUsedVariables_cache ds) raw = None ->
  trackUsedVariables raw ds =
    (Returned tt,
     set_trackUsedVariables_cache
       (Map_set (trackUsedVariables_cache ds) raw true)
       (mark_all (flat_map var_marks (ValueParser_parse raw)) ds)).
Proof.
  intros Hmiss. unfold trackUsedVariables, mbind, M_bind, DefaultMap_get.
  cbn [entries factory set_entries trackUsedVariables_map].
  rewrite Hmiss. unfold mbind, M_bind.
  rewrite (walk_marks visit_var_call var_marks); [done|].
  apply Forall_forall. intros node _. apply walk_node_var_call.
Qed.

Lemma trackUsedVariables_hit (raw : jsstring) (b : bool) (ds : DesignSystem) :
  Map_get (trackUsedVariables_cache ds) raw = Some b ->
  trackUsedVariables raw ds = (Returned tt, ds).
Proof.
  intros Hhit. unfold trackUsedVariables, mbind, M_bind.
  by rewrite (DefaultMap_get_hit trackUsedVariables_map raw b ds Hhit).
Qed.

(** A first [trackUsedVariables(raw)] calls [markUsedVariable] on the
    dashed words under the outermost [var()] calls of the parsed value,
    once for each occurrence and in document order, and on nothing
    else. *)
Theorem trackUsedVariables_marks (raw : jsstring) (ds : DesignSystem) :
  Map_get (trackUsedVariables_cache ds) raw = None ->
  let names := flat_map var_marks (ValueParser_parse raw) in
  let tracked := trackUsedVariables raw ds in
  tracked.1 = Returned tt /\
  calls tracked.2 = calls ds ++ (CallMarkUsedVariable <$> names) /\
  ext tracked.2
  = fold_left (λ e name, theme_markUsedVariable name e) names (ext ds).
Proof.
  intros Hmiss names tracked. unfold tracked.
  by rewrite (trackUsedVariables_miss _ _ Hmiss).
Qed.



End TrackerMore.

Lemma trackUsedVariables_marks_witness :
  let raw := js "color-mix(in oklab, var(--a, var(--b)) 50%, --c)" in
  calls (trackUsedVariables (H := Stub.collaborators) raw
           (buildDesignSystem (H := Stub.collaborators) 0%nat)).2
  = [CallMarkUsedVariable (js "--a"); CallMarkUsedVariable (js "--b")].
Proof.
  intros raw.
  apply (trackUsedVariables_marks (H := Stub.collaborators) raw
           (buildDesignSystem (H := Stub.collaborators) 0%nat)).
  reflexivity.
Defined.

(** ** More on the caches *)

Section CachesMore.
Context `{Collaborators}.

#[local] Instance tracker_kept_preorder : PreOrder tracker_kept.
Proof.
  split.
  - by intros ds raw b Hm.
  - intros ds1 ds2 ds3 H1 H2 raw b Hm. by apply H2, H1.
Qed.

#[local] Instance arrays_kept_preorder : PreOrder arrays_kept.
Proof.
  split.
  - by intros ds r items Hm.
  - intros ds1 ds2 ds3 H1 H2 r items Hm. by apply H2, H1.
Qed.

(** [candidatesToCss] changes the collaborators' state only. *)
Lemma candidatesToCss_loop_state (classes : list jsstring)
    (result : list (option jsstring)) (ds : DesignSystem) :
  exists e, (candidatesToCss_loop classes result ds).2 = set_ext e ds.
Proof.
  revert result ds. induction classes as [|className classes IH];
    intros result ds; simpl.
  - exists (ext ds). by destruct ds.
  - unfold mbind, M_bind. rewrite candidateToCss_run. simpl.
    match goal with
    | |- context [candidatesToCss_loop classes ?r (set_ext ?e ds)] =>
        destruct (IH r (set_ext e ds)) as [e' ->]
    end.
    by exists e'.
Qed.

Lemma perform_kept (op : Op) (ds : DesignSystem) :
  tracker_kept ds (perform ds op) /\ arrays_kept ds (perform ds op).
Proof.
  destruct op as [s|s|c|raw|classes]; simpl.
  - destruct (Map_get (parsedCandidates ds) s) as [array|] eqn:Hm.
    + unfold parseCandidate.
      rewrite (DefaultMap_get_hit parsedCandidates_map s array ds Hm).
      split; reflexivity.
    + rewrite (parseCandidate_miss _ _ Hm). simpl.
      split; [by intros raw b Hk|].
      intros r items Hr. simpl. by apply lookup_app_l_Some.
  - destruct (Map_get (parsedVariants ds) s) as [variant|] eqn:Hm.
    + unfold parseVariant.
      rewrite (DefaultMap_get_hit parsedVariants_map s variant ds Hm).
      split; reflexivity.
    + rewrite (parseVariant_miss _ _ Hm).
      split; [by intros raw b Hk|by intros r items Hk].
  - destruct (Map_get (compiledAstNodes ds) c) as [ast|] eqn:Hm.
    + unfold compileAstNodes.
      rewrite (DefaultMap_get_hit compiledAstNodes_map c ast ds Hm).
      split; reflexivity.
    + rewrite (compileAstNodes_miss _ _ Hm).
      split; [by intros raw b Hk|by intros r items Hk].
  - destruct (Map_get (trackUsedVariables_cache ds) raw) as [b|] eqn:Hm.
    + rewrite (trackUsedVariables_hit _ _ _ Hm). split; reflexivity.
    + rewrite (trackUsedVariables_miss _ _ Hm). simpl.
      split; [|by intros r items Hk].
      intros raw' b Hraw'. simpl.
      rewrite Map_get_set_ne; [done|congruence].
  - destruct (candidatesToCss_loop_state classes [] ds) as [e He].
    unfold candidatesToCss. rewrite He.
    split; [by intros raw b Hk|by intros r items Hk].
Qed.

Lemma exec_kept (ops : list Op) (ds : DesignSystem) :
  tracker_kept ds (exec ops ds) /\ arrays_kept ds (exec ops ds).
Proof.
  revert ds. induction ops as [|op ops IH]; intros ds; simpl; [done|].
  destruct (perform_kept op ds) as [Ht Ha].
  destruct (IH (perform ds op)) as [Ht' Ha'].
  split; by etrans.
Qed.

(** The log and the caches agree on every design system a history of
    calls can reach: the external parser of candidates, the external
    parser of variants, the external compiler and [substituteFunctions]
    were each called exactly once for every key their cache holds, and
    never for any other key. *)
Theorem caches_match_the_log (theme : Ext) (ops : list Op) :
  let ds := exec ops (buildDesignSystem theme) in
  (forall s, count_calls (is_parseCandidate_of s) (calls ds)
             = match Map_get (parsedCandidates ds) s with
               | Some _ => 1%nat | None => 0%nat end) /\
  (forall s, count_calls (is_parseVariant_of s) (calls ds)
             = match Map_get (parsedVariants ds) s with
               | Some _ => 1%nat | None => 0%nat end) /\
  (forall c, count_calls (is_compileAstNodes_of c) (calls ds)
             = match Map_get (compiledAstNodes ds) c with
               | Some _ => 1%nat | None => 0%nat end) /\
  (forall c, count_calls (is_substituteFunctions_of c) (calls ds)
             = match Map_get (compiledAstNodes ds) c with
               | Some _ => 1%nat | None => 0%nat end).
Proof.
  intros ds.
  by destruct (exec_step ops _ (buildDesignSystem_computed_once theme))
    as [Hinv _].
Qed.

(** Nothing is ever evicted or overwritten: whatever the four caches and
    the allocated arrays hold at some point of a history, they hold
    unchanged after any further calls. *)
Theorem caches_append_only (theme : Ext) (before after : list Op) :
  let ds := exec before (buildDesignSystem theme) in
  let ds' := exec after ds in
  (forall s array, Map_get (parsedCandidates ds) s = Some array ->
                   Map_get (parsedCandidates ds') s = Some array) /\
  (forall s variant, Map_get (parsedVariants ds) s = Some variant ->
                     Map_get (parsedVariants ds') s = Some variant) /\
  (forall c ast, Map_get (compiledAstNodes ds) c = Some ast ->
                 Map_get (compiledAstNodes ds') c = Some ast) /\
  (forall raw b, Map_get (trackUsedVariables_cache ds) raw = Some b ->
                 Map_get (trackUsedVariables_cache ds') raw = Some b) /\
  (forall (array : ArrayRef) items,
     arrays ds !! array = Some items -> arrays ds' !! array = Some items).
Proof.
  intros ds ds'.
  destruct (exec_step before _ (buildDesignSystem_computed_once theme))
    as [Hinv _]. fold ds in Hinv.
  destruct (exec_step after _ Hinv) as [_ (Hc & Hv & Hn)].
  destruct (exec_kept after ds) as [Ht Ha].
  by repeat split.
Qed.

End CachesMore.

Section ArraysMore.
Context `{Collaborators}.

Lemma exec_app (ops1 ops2 : list Op) (ds : DesignSystem) :
  exec (ops1 ++ ops2) ds = exec ops2 (exec ops1 ds).
Proof. unfold exec. apply fold_left_app. Qed.

Lemma arrays_ok_same (ds ds' : DesignSystem) :
  arrays ds' = arrays ds -> parsedCandidates ds' = parsedCandidates ds ->
  arrays_ok ds -> arrays_ok ds'.
Proof. unfold arrays_ok. by intros -> ->. Qed.

Lemma perform_arrays_ok (op : Op) (ds : DesignSystem) :
  arrays_ok ds -> arrays_ok (perform ds op).
Proof.
  intros Hok. destruct op as [s|s|c|raw|classes]; simpl.
  - destruct (Map_get (parsedCandidates ds) s) as [array|] eqn:Hm.
    + unfold parseCandidate.
      by rewrite (DefaultMap_get_hit parsedCandidates_map s array ds Hm).
    + rewrite (parseCandidate_miss _ _ Hm). simpl.
      destruct Hok as [Hbound Hinj]. split; simpl.
      * intros s' array. rewrite Map_get_set, length_app. simpl.
        destruct (decide (s = s')); [intros [= <-]; lia|].
        intros Hs'. apply Hbound in Hs'. lia.
      * intros s1 s2 array. rewrite !Map_get_set.
        destruct (decide (s = s1)) as [<-|Hne1],
                 (decide (s = s2)) as [<-|Hne2]; try done.
        -- intros [= <-] Hs2. apply Hbound in Hs2. lia.
        -- intros Hs1 [= <-]. apply Hbound in Hs1. lia.
        -- apply Hinj.
  - destruct (Map_get (parsedVariants ds) s) as [variant|] eqn:Hm.
    + unfold parseVariant.
      by rewrite (DefaultMap_get_hit parsedVariants_map s variant ds Hm).
    + rewrite (parseVariant_miss _ _ Hm). by apply (arrays_ok_same ds).
  - destruct (Map_get (compiledAstNodes ds) c) as [ast|] eqn:Hm.
    + unfold compileAstNodes.
      by rewrite (DefaultMap_get_hit compiledAstNodes_map c ast ds Hm).
    + rewrite (compileAstNodes_miss _ _ Hm). by apply (arrays_ok_same ds).
  - destruct (trackUsedVariables_quiet raw ds) as (_ & _ & Ha & _ & Hc & _).
    by apply (arrays_ok_same ds).
  - destruct (candidatesToCss_loop_quiet classes [] ds)
      as (_ & _ & Ha & _ & Hc & _).
    by apply (arrays_ok_same ds).
Qed.

Lemma exec_arrays_ok (ops : list Op) (ds : DesignSystem) :
  arrays_ok ds -> arrays_ok (exec ops ds).
Proof.
  revert ds. induction ops as [|op ops IH]; intros ds Hok; simpl; [done|].
  by apply IH, perform_arrays_ok.
Qed.

Lemma buildDesignSystem_arrays_ok (theme : Ext) :
  arrays_ok (buildDesignSystem theme).
Proof. split; intros; simplify_eq/=. Qed.

(** The array a first [parseCandidate(s)] returns holds what the external
    parser returned for [s], it holds the same after any further calls,
    and [parseCandidate] never returns that array for another string. *)
Theorem parseCandidate_array (theme : Ext) (before after : list Op)
    (s : jsstring) :
  let ds := exec before (buildDesignSystem theme) in
  Map_get (parsedCandidates ds) s = None ->
  let first := parseCandidate s ds in
  let ds' := exec after first.2 in
  exists array : ArrayRef,
    first.1 = Returned array /\
    arrays ds' !! array = Some (parseCandidate_ext s (ext ds)).1 /\
    forall s', s' <> s -> (parseCandidate s' ds').1 <> Returned array.
Proof.
  intros ds Hmiss first ds'.
  assert (Hok : arrays_ok ds')
    by apply exec_arrays_ok,
         (perform_arrays_ok (OpParseCandidate s)),
         exec_arrays_ok, buildDesignSystem_arrays_ok.
  destruct (exec_step before _ (buildDesignSystem_computed_once theme))
    as [Hinv _]. fold ds in Hinv.
  destruct (parseCandidate_step s ds Hinv) as (Hinv1 & _ & array & Hr & Hm).
  fold first in Hinv1, Hr, Hm.
  destruct (exec_step after _ Hinv1) as [_ (Hkept & _ & _)].
  fold ds' in Hkept. apply Hkept in Hm.
  destruct (exec_kept after first.2) as [_ Harrays]. fold ds' in Harrays.
  exists array. split; [done|]. split.
  - apply Harrays. unfold first in *.
    rewrite (parseCandidate_miss _ _ Hmiss) in Hr |- *. simpl in *.
    injection Hr as <-. by apply list_lookup_middle.
  - intros s' Hne. destruct Hok as [Hbound Hinj].
    destruct (Map_get (parsedCandidates ds') s') as [array'|] eqn:Hs'.
    + unfold parseCandidate.
      rewrite (DefaultMap_get_hit parsedCandidates_map s' array' ds' Hs').
      simpl. intros [= ->]. by apply Hne, (Hinj s' s array).
    + rewrite (parseCandidate_miss _ _ Hs'). simpl. intros [= Heq].
      apply Hbound in Hm. lia.
Qed.

(** When [substituteFunctions] returns, a first [compileAstNodes(c)]
    returns the entries of the external compiler as they are, and so does
    every later call, without compiling again. *)
Theorem compileAstNodes_success (theme : Ext) (before after : list Op)
    (c : Candidate) :
  let ds := exec before (buildDesignSystem theme) in
  Map_get (compiledAstNodes ds) c = None ->
  (substituteFunctions
     (entry_node <$> (compileAstNodes_ext c (ext ds)).1)
     (compileAstNodes_ext c (ext ds)).2).1 = Returned tt ->
  let first := compileAstNodes c ds in
  let ds' := exec after first.2 in
  first.1 = Returned (compileAstNodes_ext c (ext ds)).1 /\
  compileAstNodes c ds' = (Returned (compileAstNodes_ext c (ext ds)).1, ds').
Proof.
  intros ds Hmiss Hreturns first ds'.
  destruct (exec_step before _ (buildDesignSystem_computed_once theme))
    as [Hinv _]. fold ds in Hinv.
  destruct (compileAstNodes_step c ds Hinv) as (Hinv1 & _ & ast & Hr & Hm).
  fold first in Hinv1, Hr, Hm.
  assert (Hast : ast = (compileAstNodes_ext c (ext ds)).1).
  { unfold first in Hr. rewrite (compileAstNodes_miss _ _ Hmiss) in Hr.
    simpl in Hr. unfold compiled_result in Hr. fold ds in Hr.
    rewrite Hreturns in Hr. congruence. }
  subst ast.
  destruct (exec_step after _ Hinv1) as [_ (_ & _ & Hkept)].
  fold ds' in Hkept. split; [done|].
  unfold compileAstNodes.
  by rewrite (DefaultMap_get_hit compiledAstNodes_map c _ _ (Hkept _ _ Hm)).
Qed.

End ArraysMore.

Lemma parseCandidate_array_witness :
  let ds := buildDesignSystem (H := Stub.collaborators) 0%nat in
  let after := [OpParseCandidate (js "m-2"); OpParseVariant (js "hover")] in
  exists array : ArrayRef,
    (parseCandidate (js "p-4") ds).1 = Returned array /\
    arrays (exec after (parseCandidate (js "p-4") ds).2) !! array
    = Some [js "p-4"] /\
    forall s', s' <> js "p-4" ->
      (parseCandidate s' (exec after (parseCandidate (js "p-4") ds).2)).1
      <> Returned array.
Proof.
  intros ds after.
  apply (parseCandidate_array (H := Stub.collaborators) 0%nat [] after
           (js "p-4")).
  reflexivity.
Defined.

Lemma compileAstNodes_success_witness :
  let ds := buildDesignSystem (H := Stub.collaborators) 0%nat in
  let c : Candidate := js "p-4" in
  let after := [OpCompileAstNodes (js "theme(--x)")] in
  (compileAstNodes c ds).1 = Returned [js "p-4"] /\
  compileAstNodes c (exec after (compileAstNodes c ds).2)
  = (Returned [js "p-4"], exec after (compileAstNodes c ds).2).
Proof.
  intros ds c after.
  apply (compileAstNodes_success (H := Stub.collaborators) 0%nat [] after c).
  - reflexivity.
  - reflexivity.
Defined.

(** ** More on the batch facade *)

Section CandidatesToCssMore.
Context `{Collaborators}.

Lemma candidatesToCss_loop_result (classes : list jsstring)
    (result : list (option jsstring)) (ds : DesignSystem) :
  exists entries,
    candidatesToCss_loop classes [] ds
    = (Returned entries, (candidatesToCss_loop classes [] ds).2) /\
    candidatesToCss_loop classes result ds
    = (Returned (result ++ entries), (candidatesToCss_loop classes [] ds).2).
Proof.
  revert result ds. induction classes as [|className classes IH];
    intros result ds; simpl.
  - exists []. by rewrite app_nil_r.
  - unfold mbind, M_bind. rewrite candidateToCss_run. simpl.
    match goal with
    | |- context [candidatesToCss_loop classes [?e] ?d] =>
        set (entry := e); set (ds1 := d)
    end.
    destruct (IH [entry] ds1) as (entries & Hnil & Hone).
    destruct (IH (result ++ [entry]) ds1) as (entries' & Hnil' & Hacc).
    rewrite Hnil in Hnil'. injection Hnil' as <-.
    exists (entry :: entries). rewrite Hone, Hacc, Hnil. simpl.
    by rewrite <- app_assoc.
Qed.

(** A batch is its parts run one after the other: the entries of
    [xs ++ ys] are the entries of [xs] followed by the entries of [ys]
    computed in the state [xs] left; the empty batch gives no entry and
    changes nothing. *)
Theorem candidatesToCss_app (xs ys : list jsstring) (ds : DesignSystem) :
  candidatesToCss [] ds = (Returned [], ds) /\
  exists entries1 entries2 : list (option jsstring),
    (candidatesToCss xs ds).1 = Returned entries1 /\
    (candidatesToCss ys (candidatesToCss xs ds).2).1 = Returned entries2 /\
    candidatesToCss (xs ++ ys) ds
    = (Returned (entries1 ++ entries2),
       (candidatesToCss ys (candidatesToCss xs ds).2).2).
Proof.
  split; [done|]. unfold candidatesToCss.
  destruct (candidatesToCss_loop_app xs ys [] ds)
    as (entries1 & _ & Hxs & Happ).
  destruct (candidatesToCss_loop_result ys entries1
              (candidatesToCss_loop xs [] ds).2)
    as (entries2 & Hys & Hacc).
  exists entries1, entries2. split; [done|].
  split; [by rewrite Hys|].
  rewrite Happ. simpl. by rewrite Hacc.
Qed.

End CandidatesToCssMore.

(** ** More on the variant order *)

Section VariantOrderMore.
Context `{Collaborators}.

(** A variant [parseVariant] has returned has an index in every later
    variant order, and there is no index before any variant was parsed. *)
Theorem getVariantOrder_after_parseVariant (theme : Ext)
    (before after : list Op) (s : jsstring) (v : Variant) :
  let ds := exec before (buildDesignSystem theme) in
  (parseVariant s ds).1 = Returned (Some v) ->
  is_Some (Map_get (getVariantOrder (exec after (parseVariant s ds).2))
             (Some v)) /\
  getVariantOrder (buildDesignSystem theme) = [].
Proof.
  intros ds Hparsed. split; [|done].
  destruct (exec_step before _ (buildDesignSystem_computed_once theme))
    as [Hinv _]. fold ds in Hinv.
  destruct (parseVariant_step s ds Hinv)
    as (Hinv1 & _ & variant & Hr & Hm).
  rewrite Hparsed in Hr. injection Hr as <-.
  destruct (exec_step after _ Hinv1) as [_ (_ & Hkept & _)].
  apply getVariantOrder_keys. split; [|done].
  eapply Map_get_Some_values, Hkept, Hm.
Qed.

(** For a consistent comparator the index is an order embedding of the
    cached variants: one variant has a smaller index than another exactly
    when the comparator puts it before, and the same index exactly when
    the comparator calls them equal. *)
Theorem getVariantOrder_order_embedding (ds : DesignSystem)
    (x y : option Variant) (kx ky : nat) :
  consistent_comparator variants_compare ->
  Map_get (getVariantOrder ds) x = Some kx ->
  Map_get (getVariantOrder ds) y = Some ky ->
  ((kx < ky)%nat <-> variants_compare x y < 0) /\
  (kx = ky <-> variants_compare x y = 0).
Proof. intros Hcmp. by apply getVariantOrder_embedding. Qed.

End VariantOrderMore.

Lemma getVariantOrder_after_parseVariant_witness :
  let ds := buildDesignSystem (H := Stub.collaborators) 0%nat in
  is_Some
    (Map_get
       (getVariantOrder
          (exec [OpParseVariant (js "focus")]
             (parseVariant (js "hover") ds).2))
       (Some 104%N)).
Proof.
  intros ds.
  apply (getVariantOrder_after_parseVariant (H := Stub.collaborators)
           0%nat [] [OpParseVariant (js "focus")] (js "hover") 104%N).
  reflexivity.
Defined.

Lemma getVariantOrder_order_embedding_witness :
  let ds :=
    exec [OpParseVariant (js "b"); OpParseVariant (js "c");
          OpParseVariant (js "a")]
      (buildDesignSystem (H := Stub.collaborators) 0%nat) in
  ((0 < 1)%nat <-> variants_compare (Some 97%N) (Some 99%N) < 0) /\
  (0%nat = 1%nat <-> variants_compare (Some 97%N) (Some 99%N) = 0).
Proof.
  intros ds.
  apply (getVariantOrder_order_embedding (H := Stub.collaborators) ds
           (Some 97%N) (Some 99%N) 0%nat 1%nat).
  - exact stub_compare_consistent.
  - reflexivity.
  - reflexivity.
Defined.

Section OrderIndices.
Context `{Collaborators}.
Implicit Types (st : OrderLoop) (l : list (option Variant)).

(** The loop hands out fewer indices than it has seen variants. *)
Lemma order_loop_bound l st (n : nat) :
  (prevVariant st = None -> order st = [] /\ index st = 0%nat) ->
  (prevVariant st <> None -> (index st < n)%nat) ->
  (forall x k, Map_get (order st) x = Some k -> (k <= index st)%nat) ->
  forall x k,
    Map_get (order (fold_left order_step l st)) x = Some k ->
    (k < n + length (non_null l))%nat.
Proof.
  revert st n. induction l as [|[w|] l IH]; intros st n Hnone Hsome Hle x k.
  - simpl. intros Hx. destruct (prevVariant st) as [p|] eqn:Hp.
    + specialize (Hle _ _ Hx). specialize (Hsome ltac:(done)). lia.
    + destruct (Hnone eq_refl) as [Horder _]. by rewrite Horder in Hx.
  - change (non_null (Some w :: l)) with (w :: non_null l). simpl.
    intros Hx.
    assert (Hidx : (index (order_step st (Some w)) < S n)%nat).
    { simpl. destruct (prevVariant st) as [p|] eqn:Hp.
      - specialize (Hsome ltac:(done)).
        destruct (negb _); lia.
      - destruct (Hnone eq_refl) as [_ ->]. lia. }
    replace (n + S (length (non_null l)))%nat
      with (S n + length (non_null l))%nat by lia.
    apply (IH (order_step st (Some w)) (S n)) with x;
      [intros [=]|intros _; exact Hidx| |exact Hx].
    intros y j. destruct (decide (y = Some w)) as [->|Hne].
    + rewrite order_step_self. intros [= <-]. done.
    + rewrite order_step_other by done. intros Hy.
      specialize (Hle _ _ Hy). simpl.
      destruct (prevVariant st); [destruct (negb _)|]; lia.
  - apply IH; done.
Qed.

Section Consistent.
Hypothesis Hcmp : consistent_comparator variants_compare.

Lemma order_step_contiguous st (w : Variant) :
  order_ok st ->
  (forall y j, Map_get (order st) y = Some j -> compare_le y (Some w)) ->
  order_contiguous st ->
  order_contiguous (order_step st (Some w)).
Proof.
  intros (Hprev & Hbound & _) Hle [Hzero Hcont]. split; [done|].
  intros j Hj _.
  destruct (decide (j = index (order_step st (Some w)))) as [->|Hne].
  { exists (Some w). apply order_step_self. }
  destruct (prevVariant st) as [p|] eqn:Hp.
  - assert (Hj' : (j <= index st)%nat).
    { simpl in Hj, Hne. rewrite Hp in Hj, Hne. destruct (negb _); lia. }
    destruct (Hcont j Hj' ltac:(done)) as [y Hy].
    exists y. rewrite order_step_other; [done|].
    intros ->. exfalso.
    destruct (Hbound _ _ Hy) as (p' & Hp' & Hwp & _ & Heq).
    injection Hp' as <-.
    pose proof (Hle _ _ (Hprev _ eq_refl)) as Hpw.
    unfold compare_le in Hwp, Hpw.
    destruct (compare_flip Hcmp (Some w) (Some p)) as (? & ? & ?).
    assert (Hzero' : variants_compare (Some w) (Some p) = 0) by lia.
    apply Hne. simpl. rewrite Hp.
    assert (variants_compare (Some p) (Some w) = 0) as -> by auto.
    simpl. by apply Heq.
  - simpl in Hj, Hne. rewrite Hp in Hj, Hne.
    rewrite (Hzero eq_refl) in Hj, Hne. lia.
Qed.

Lemma order_loop_contiguous l st :
  StronglySorted compare_le l ->
  order_ok st ->
  (forall y j, Map_get (order st) y = Some j -> Forall (compare_le y) l) ->
  order_contiguous st ->
  order_contiguous (fold_left order_step l st).
Proof.
  intros Hsorted. revert st.
  induction Hsorted as [|variant l Hl IH Hvariant];
    intros st Hok Hle Hcont; simpl; [done|].
  assert (Hhead : forall y j, Map_get (order st) y = Some j ->
                              compare_le y variant).
  { intros y j Hy. by eapply Forall_cons_1, Hle. }
  apply IH.
  - by apply order_step_ok.
  - intros y j Hy. destruct (decide (y = variant)) as [->|Hne]; [done|].
    rewrite order_step_other in Hy by done.
    by eapply Forall_cons_1, Hle.
  - destruct variant as [w|]; [|done]. by apply order_step_contiguous.
Qed.

Lemma getVariantOrder_no_gap (ds : DesignSystem) (x : option Variant)
    (k j : nat) :
  Map_get (getVariantOrder ds) x = Some k -> (j < k)%nat ->
  exists y, Map_get (getVariantOrder ds) y = Some j.
Proof.
  intros Hx Hj. unfold getVariantOrder in *.
  set (init := {| order := []; prevVariant := None; index := 0 |}) in *.
  set (sorted := Array_sort (Map_values (parsedVariants ds))) in *.
  assert (Hinit : order_ok init) by (repeat split; intros; simplify_eq/=).
  assert (Hle : forall y i, Map_get (order init) y = Some i ->
                            Forall (compare_le y) sorted)
    by (intros; simplify_eq/=).
  pose proof (Array_sort_sorted Hcmp (Map_values (parsedVariants ds)))
    as Hsorted. fold sorted in Hsorted.
  destruct (order_loop_ok Hcmp sorted init Hsorted Hinit Hle)
    as (_ & Hbound & _).
  destruct (order_loop_contiguous sorted init Hsorted Hinit Hle)
    as [_ Hcont].
  { split; [done|]. intros; simplify_eq/=. }
  destruct (Hbound _ _ Hx) as (p & Hp & _ & Hk & _).
  apply Hcont; [lia|]. by rewrite Hp.
Qed.

(** Two maps on the same variants agree below any index where they could
    differ. *)
Lemma getVariantOrder_not_less (ds1 ds2 : DesignSystem) :
  (forall v, v ∈ Map_values (parsedVariants ds1) <->
             v ∈ Map_values (parsedVariants ds2)) ->
  forall (a : nat) (x : option Variant) (b : nat),
    Map_get (getVariantOrder ds1) x = Some a ->
    Map_get (getVariantOrder ds2) x = Some b ->
    ~ (a < b)%nat.
Proof.
  intros Hsame a. induction (lt_wf a) as [a _ IH].
  intros x b Hxa Hxb Hlt.
  destruct (getVariantOrder_no_gap ds2 x b a Hxb Hlt) as [y Hyb].
  assert (Hkey : is_Some (Map_get (getVariantOrder ds1) y)).
  { apply getVariantOrder_keys.
    assert (Hy : is_Some (Map_get (getVariantOrder ds2) y)) by eauto.
    apply getVariantOrder_keys in Hy as [Hy ?]. split; [|done].
    by apply Hsame. }
  destruct Hkey as [a' Hya].
  destruct (getVariantOrder_embedding Hcmp ds2 _ _ _ _ Hyb Hxb) as [Hlt2 _].
  destruct (getVariantOrder_embedding Hcmp ds1 _ _ _ _ Hya Hxa) as [Hlt1 _].
  assert (Ha' : (a' < a)%nat) by (apply Hlt1, Hlt2, Hlt).
  by apply (IH a' Ha' y a).
Qed.

End Consistent.

(** Every index of the variant order is smaller than the number of cached
    variants; and for a consistent comparator the indices leave no gap:
    below an index that is in use, every index is in use. *)
Theorem getVariantOrder_indices (ds : DesignSystem) (x : option Variant)
    (k : nat) :
  Map_get (getVariantOrder ds) x = Some k ->
  (k < length (non_null (Map_values (parsedVariants ds))))%nat /\
  (consistent_comparator variants_compare ->
   forall j, (j < k)%nat ->
     exists y, Map_get (getVariantOrder ds) y = Some j).
Proof.
  intros Hx. split.
  - unfold non_null.
    rewrite <- (Array_sort_Permutation (Map_values (parsedVariants ds))).
    apply (order_loop_bound _
             {| order := []; prevVariant := None; index := 0 |} 0%nat)
      with x; done.
  - intros Hcmp j Hj. by apply (getVariantOrder_no_gap Hcmp ds x k).
Qed.

(** For a consistent comparator the variant order depends on which
    variants the cache holds, not on the order in which they were parsed:
    two design systems whose variant caches hold the same values give
    every variant the same index. *)
Theorem getVariantOrder_parse_order_irrelevant (ds1 ds2 : DesignSystem)
    (x : option Variant) :
  consistent_comparator variants_compare ->
  (forall v, v ∈ Map_values (parsedVariants ds1) <->
             v ∈ Map_values (parsedVariants ds2)) ->
  Map_get (getVariantOrder ds1) x = Map_get (getVariantOrder ds2) x.
Proof.
  intros Hcmp Hsame.
  destruct (Map_get (getVariantOrder ds1) x) as [a|] eqn:H1,
           (Map_get (getVariantOrder ds2) x) as [b|] eqn:H2; try done.
  - f_equal.
    pose proof (getVariantOrder_not_less Hcmp ds1 ds2 Hsame a x b H1 H2).
    assert (Hsame' : forall v, v ∈ Map_values (parsedVariants ds2) <->
                               v ∈ Map_values (parsedVariants ds1))
      by (intros v; by rewrite Hsame).
    pose proof (getVariantOrder_not_less Hcmp ds2 ds1 Hsame' b x a H2 H1).
    lia.
  - assert (Hk : is_Some (Map_get (getVariantOrder ds1) x)) by eauto.
    apply getVariantOrder_keys in Hk as [Hk ?]. apply Hsame in Hk.
    assert (Hk2 : is_Some (Map_get (getVariantOrder ds2) x))
      by by apply getVariantOrder_keys.
    rewrite H2 in Hk2. by destruct Hk2.
  - assert (Hk : is_Some (Map_get (getVariantOrder ds2) x)) by eauto.
    apply getVariantOrder_keys in Hk as [Hk ?]. apply Hsame in Hk.
    assert (Hk1 : is_Some (Map_get (getVariantOrder ds1) x))
      by by apply getVariantOrder_keys.
    rewrite H1 in Hk1. by destruct Hk1.
Qed.

End OrderIndices.

Lemma getVariantOrder_indices_witness :
  let ds :=
    exec [OpParseVariant (js "b"); OpParseVariant (js "c");
          OpParseVariant (js "a"); OpParseVariant (js "")]
      (buildDesignSystem (H := Stub.collaborators) 0%nat) in
  (1 < 3)%nat /\
  exists y, Map_get (getVariantOrder ds) y = Some 0%nat.
Proof.
  intros ds.
  destruct (getVariantOrder_indices (H := Stub.collaborators) ds
              (Some 99%N) 1%nat eq_refl) as [Hbound Hgap].
  split; [exact Hbound|].
  apply Hgap; [exact stub_compare_consistent|lia].
Defined.

(** The same three variants parsed in two orders. *)
Lemma getVariantOrder_parse_order_irrelevant_witness :
  let ds1 :=
    exec [OpParseVariant (js "b"); OpParseVariant (js "c");
          OpParseVariant (js "a")]
      (buildDesignSystem (H := Stub.collaborators) 0%nat) in
  let ds2 :=
    exec [OpParseVariant (js "a"); OpParseVariant (js "c");
          OpParseVariant (js "b")]
      (buildDesignSystem (H := Stub.collaborators) 0%nat) in
  Map_get (getVariantOrder ds1) (Some 99%N)
  = Map_get (getVariantOrder ds2) (Some 99%N).
Proof.
  intros ds1 ds2.
  apply (getVariantOrder_parse_order_irrelevant (H := Stub.collaborators)
           ds1 ds2 (Some 99%N)).
  - exact stub_compare_consistent.
  - intros v. rewrite !list_elem_of_In. vm_compute. tauto.
Defined.

Lemma caches_append_only_witness :
  let ds :=
    exec [OpParseCandidate (js "p-4"); OpParseVariant (js "hover")]
      (buildDesignSystem (H := Stub.collaborators) 0%nat) in
  let ds' := exec [OpParseCandidate (js "m-2"); OpParseVariant (js "")] ds in
  Map_get (parsedCandidates ds') (js "p-4") = Some 0%nat /\
  Map_get (parsedVariants ds') (js "hover") = Some (Some 104%N).
Proof.
  intros ds ds'.
  destruct (caches_append_only (H := Stub.collaborators) 0%nat
              [OpParseCandidate (js "p-4"); OpParseVariant (js "hover")]
              [OpParseCandidate (js "m-2"); OpParseVariant (js "")])
    as (Hc & Hv & _).
  split; [apply Hc|apply Hv]; reflexivity.
Defined.

Section MemoMore.
Context `{Collaborators}.

(** A first [parseVariant(s)] returns what the external parser returns
    for [s], a variant or [null], and every later call returns that same
    answer without asking the parser or changing the design system. *)
Theorem parseVariant_first_result (theme : Ext) (before after : list Op)
    (s : jsstring) :
  let ds := exec before (buildDesignSystem theme) in
  Map_get (parsedVariants ds) s = None ->
  let first := parseVariant s ds in
  let ds' := exec after first.2 in
  first.1 = Returned (parseVariant_ext s (ext ds)).1 /\
  parseVariant s ds' = (Returned (parseVariant_ext s (ext ds)).1, ds').
Proof.
  intros ds Hmiss first ds'.
  destruct (exec_step before _ (buildDesignSystem_computed_once theme))
    as [Hinv _]. fold ds in Hinv.
  destruct (parseVariant_step s ds Hinv) as (Hinv1 & _ & variant & Hr & Hm).
  fold first in Hinv1, Hr, Hm.
  assert (Hvariant : variant = (parseVariant_ext s (ext ds)).1).
  { unfold first in Hr. rewrite (parseVariant_miss _ _ Hmiss) in Hr.
    simpl in Hr. congruence. }
  subst variant.
  destruct (exec_step after _ Hinv1) as [_ (_ & Hkept & _)].
  fold ds' in Hkept. split; [done|].
  unfold parseVariant.
  by rewrite (DefaultMap_get_hit parsedVariants_map s _ _ (Hkept _ _ Hm)).
Qed.

(** The tracker remembers texts, not variables: tracking two different
    texts for the first time marks the variables of the first and then the
    variables of the second, also those the two share. *)
Theorem trackUsedVariables_two_texts (raw1 raw2 : jsstring)
    (ds : DesignSystem) :
  raw1 <> raw2 ->
  Map_get (trackUsedVariables_cache ds) raw1 = None ->
  Map_get (trackUsedVariables_cache ds) raw2 = None ->
  calls (trackUsedVariables raw2 (trackUsedVariables raw1 ds).2).2
  = calls ds
    ++ (CallMarkUsedVariable <$> flat_map var_marks (ValueParser_parse raw1))
    ++ (CallMarkUsedVariable <$> flat_map var_marks (ValueParser_parse raw2)).
Proof.
  intros Hne Hmiss1 Hmiss2.
  rewrite (trackUsedVariables_miss _ _ Hmiss1). simpl.
  rewrite trackUsedVariables_miss.
  - simpl. by rewrite <- app_assoc.
  - simpl. by rewrite Map_get_set_ne.
Qed.

End MemoMore.

Lemma parseVariant_first_result_witness :
  let ds := buildDesignSystem (H := Stub.collaborators) 0%nat in
  let after := [OpParseVariant (js "hover")] in
  (parseVariant (js "") ds).1 = Returned None /\
  parseVariant (js "") (exec after (parseVariant (js "") ds).2)
  = (Returned None, exec after (parseVariant (js "") ds).2).
Proof.
  intros ds after.
  apply (parseVariant_first_result (H := Stub.collaborators) 0%nat []
           after (js "")).
  reflexivity.
Defined.

Lemma trackUsedVariables_two_texts_witness :
  calls
    (trackUsedVariables (H := Stub.collaborators) (js "var(--a) var(--b)")
       (trackUsedVariables (js "var(--a)")
          (buildDesignSystem (H := Stub.collaborators) 0%nat)).2).2
  = [CallMarkUsedVariable (js "--a"); CallMarkUsedVariable (js "--a");
     CallMarkUsedVariable (js "--b")].
Proof.
  apply (trackUsedVariables_two_texts (H := Stub.collaborators)
           (js "var(--a)") (js "var(--a) var(--b)")
           (buildDesignSystem (H := Stub.collaborators) 0%nat)).
  - discriminate.
  - reflexivity.
  - reflexivity.
Defined.
